(** * hums-card-gateway: card parsers, serial discovery, reconnect timer,
    delivery retries and the auto-updater, embedded from the JavaScript
    sources (src/parsers.js, src/index.js and its stty/fs variant). *)

From Stdlib Require Import ZArith Ascii String List Bool Lia.
From Stdlib Require Import QArith Qround.
From Stdlib.Strings Require Import Byte.
From stdpp Require Import base option list gmap strings.
From Equations Require Import Equations.
Import ListNotations.
Close Scope Q_scope.

Set Default Proof Using "Type".

(** ** JavaScript strings

  A JS string is a sequence of code units.  What the gateway reads (the
  card reader's lines, sysfs attributes, config.json identifiers, the
  revision GitHub answers) is ASCII, and it only ever compares code units
  with ['='], ['0'..'9'], letters and white space; a code unit is
  modelled by [ascii], the code units 0 to 255, and a string by
  [list ascii].  [toLowerCase] and [trim] are those of JavaScript on this
  range.  Literals are written [str "..."]. *)

Abbreviation jsstring := (list ascii).

Definition str (s : string) : jsstring := list_ascii_of_string s.

Definition code (c : ascii) : nat := nat_of_ascii c.

Module JS.

(** [v === w] on strings. *)
Definition eqb (s t : jsstring) : bool := bool_decide (s = t).

(** [!s] is true exactly for the empty string. *)
Definition isEmpty (s : jsstring) : bool :=
  match s with [] => true | _ :: _ => false end.

(** Truthiness of a value that is a string or [null]. *)
Definition truthy (v : option jsstring) : bool :=
  match v with
  | Some s => negb (isEmpty s)
  | None => false
  end.

(** [s.includes(c)] for a one-character needle. *)
Definition includes (s : jsstring) (c : ascii) : bool :=
  existsb (Ascii.eqb c) s.

(** [s.startsWith(p)]. *)
Fixpoint startsWith (s p : jsstring) {struct p} : bool :=
  match p with
  | [] => true
  | a :: p' =>
      match s with
      | [] => false
      | b :: s' => Ascii.eqb a b && startsWith s' p'
      end
  end.

(** [s.split(c)] for a one-character separator: the fields between the
    separators, in order; a string without separator is its only field. *)
Fixpoint split (sep : ascii) (s : jsstring) : list jsstring :=
  match s with
  | [] => [[]]
  | c :: s' =>
      if Ascii.eqb c sep then [] :: split sep s'
      else match split sep s' with
           | f :: fs => (c :: f) :: fs
           | [] => [[c]]
           end
  end.

(** [fields.join(c)]. *)
Fixpoint join (sep : ascii) (fields : list jsstring) : jsstring :=
  match fields with
  | [] => []
  | [f] => f
  | f :: fs => f ++ sep :: join sep fs
  end.

(** [s.slice(start, end)]: negative indices count from the end, both
    are clamped to the string, an empty range gives the empty string. *)
Definition slice (s : jsstring) (start end_ : Z) : jsstring :=
  let len := Z.of_nat (length s) in
  let from := if (start <? 0)%Z then Z.max (len + start) 0 else Z.min start len in
  let to := if (end_ <? 0)%Z then Z.max (len + end_) 0 else Z.min end_ len in
  take (Z.to_nat (to - from)) (drop (Z.to_nat from) s).

(** [s.padStart(targetLength, padString)]: the filler is [padString]
    repeated and cut to the missing length; nothing is ever removed. *)
Definition padStart (s : jsstring) (targetLength : nat) (padString : jsstring) : jsstring :=
  let fillLen := targetLength - length s in
  if (fillLen =? 0) || isEmpty padString then s
  else take fillLen (concat (replicate fillLen padString)) ++ s.

(** The class [\d] (without the unicode flag): ['0'..'9']. *)
Definition isDigit (c : ascii) : bool :=
  (48 <=? code c) && (code c <=? 57).

(** [/^\d+$/.test(s)]. *)
Definition re_digits (s : jsstring) : bool :=
  negb (isEmpty s) && forallb isDigit s.

(** [s.toLowerCase()] on the code units below 256: the letters A-Z and
    the capital letters of Latin-1 (192 to 222, without the sign at 215)
    go to the code unit 32 above. *)
Definition lowerChar (c : ascii) : ascii :=
  if ((65 <=? code c) && (code c <=? 90))
     || ((192 <=? code c) && (code c <=? 222) && negb (code c =? 215))
  then ascii_of_nat (code c + 32) else c.

Definition toLowerCase (s : jsstring) : jsstring := map lowerChar s.

(** White space removed by [s.trim()], among the code units below 256:
    TAB, LF, VT, FF, CR, space and the no-break space (160). *)
Definition isSpace (c : ascii) : bool :=
  ((9 <=? code c) && (code c <=? 13)) || (code c =? 32) || (code c =? 160).

Fixpoint trimStart (s : jsstring) : jsstring :=
  match s with
  | c :: s' => if isSpace c then trimStart s' else s
  | [] => []
  end.

Definition trim (s : jsstring) : jsstring :=
  rev (trimStart (rev (trimStart s))).

End JS.

(** ** Card data parsers (src/parsers.js) *)

Module Parsers.
Import JS.

Definition CARD_ID_LENGTH : nat := 9.

(** The literal ["601770"] of [fullParser] and [mobileParser]. *)
Definition ISSUER : jsstring := str "601770".

(** A parser: [(raw: string) => string | null]. *)
Definition Parser : Type := jsstring -> option jsstring.

Definition fullParser : Parser := fun raw =>
  if negb (includes raw "=") then None
  else
    let segments := split "=" raw in
    match List.find (fun s => startsWith s ISSUER) segments with
    | None => None
    | Some seg =>
        if isEmpty seg then None
        else
          let body := slice seg 9 (-1) in
          if isEmpty body || negb (re_digits body) then None
          else Some (padStart body CARD_ID_LENGTH (str "0"))
    end.

(** [/^601770\d{10}$/.test(raw)]. *)
Definition re_mobile (raw : jsstring) : bool :=
  startsWith raw ISSUER
  && (length (drop 6 raw) =? 10) && forallb isDigit (drop 6 raw).

Definition mobileParser : Parser := fun raw =>
  if re_mobile raw then Some raw else None.

Definition shortParser : Parser := fun raw =>
  if re_digits raw && (length raw <=? CARD_ID_LENGTH)
  then Some (padStart raw CARD_ID_LENGTH (str "0"))
  else None.

Definition builtinParsers : list Parser :=
  [fullParser; mobileParser; shortParser].

(** [createCardParser(parsers)] returns the closure [parseCardData]: the
    loop leaves with the first result that is not [null]. *)
Fixpoint createCardParser (parsers : list Parser) (raw : jsstring) : option jsstring :=
  match parsers with
  | [] => None
  | parser :: rest =>
      match parser raw with
      | Some result => Some result
      | None => createCardParser rest raw
      end
  end.

(** [const parseCardData = createCardParser(builtinParsers)] (index.js). *)
Definition parseCardData : Parser := createCardParser builtinParsers.

End Parsers.

(** ** Configuration and logging (src/index.js) *)

Inductive Level := INFO | WARN | ERROR.

(** A line written by [log], [logWarn] or [logError]: level and message. *)
Record LogLine := Log { level : Level; message : string }.

(** The object [loadConfig] returns.  A number of the configuration is
    any finite number, whole or not, of either sign: every finite double
    is a rational.  A JSON literal beyond the range of a double, which
    parses to an infinity, is outside this type. *)
Record Config := {
  serialPath : option jsstring;
  vendorId : option jsstring;
  productId : option jsstring;
  baudRate : Q;
  endpoint : jsstring;
  authToken : option jsstring;
  deviceName : jsstring;
  reconnectInterval : Q;
  sendRetries : Q;
  sendRetryDelay : Q
}.

(** The parsed config.json: absent fields are [None]. *)
Record ConfigFile := {
  cfg_serialPath : option jsstring;
  cfg_vendorId : option jsstring;
  cfg_productId : option jsstring;
  cfg_baudRate : option Q;
  cfg_endpoint : option jsstring;
  cfg_authToken : option jsstring;
  cfg_deviceName : option jsstring;
  cfg_reconnectInterval : option Q;
  cfg_sendRetries : option Q;
  cfg_sendRetryDelay : option Q
}.

(** [v || null] on a string or absent field. *)
Definition orNull (v : option jsstring) : option jsstring :=
  if JS.truthy v then v else None.

(** [v || d] on a number or absent field: zero and absent give [d], any
    other number is kept as it is. *)
Definition orDefault (v : option Q) (d : Q) : Q :=
  match v with
  | Some n => if Qeq_bool n 0 then d else n
  | None => d
  end.

(** [loadConfig], after the file has been read and parsed; [None] stands
    for [process.exit(1)] on a missing required field. *)
Definition loadConfig (cfg : ConfigFile) : option Config :=
  match orNull (cfg_endpoint cfg), orNull (cfg_deviceName cfg) with
  | Some ep, Some dev =>
      Some {| serialPath := orNull (cfg_serialPath cfg);
              vendorId := orNull (cfg_vendorId cfg);
              productId := orNull (cfg_productId cfg);
              baudRate := orDefault (cfg_baudRate cfg) 9600%Q;
              endpoint := ep;
              authToken := orNull (cfg_authToken cfg);
              deviceName := dev;
              reconnectInterval := orDefault (cfg_reconnectInterval cfg) 5000%Q;
              sendRetries := orDefault (cfg_sendRetries cfg) 3%Q;
              sendRetryDelay := orDefault (cfg_sendRetryDelay cfg) 2000%Q |}
  | _, _ => None
  end.

(** ** Serial device discovery (src/index.js, [findSerialPath]) *)

Module Discovery.
Import JS.

(** An entry pushed by [discoverLinuxPorts] or [discoverMacPorts]. *)
Record Port := {
  port_path : jsstring;
  port_vendorId : option jsstring;
  port_productId : option jsstring
}.

(** [v], or the empty string when [v] is falsy. *)
Definition orEmpty (v : option jsstring) : jsstring :=
  if truthy v then default [] v else [].

(** [config.vendorId ? config.vendorId.toLowerCase() : null]. *)
Definition want (v : option jsstring) : option jsstring :=
  if truthy v then toLowerCase <$> v else None.

(** The callback of [ports.filter]. *)
Definition portMatches (wantVid wantPid : option jsstring) (p : Port) : bool :=
  let vid := toLowerCase (orEmpty (port_vendorId p)) in
  let pid := toLowerCase (orEmpty (port_productId p)) in
  if truthy wantVid && negb (bool_decide (Some vid = wantVid)) then false
  else if truthy wantPid && negb (bool_decide (Some pid = wantPid)) then false
  else true.

(** [findSerialPath()]; [ports] is what the platform's enumeration
    returned.  The result is the path (or [null]) and the lines logged. *)
Definition findSerialPath (config : Config) (ports : list Port)
  : option jsstring * list LogLine :=
  if truthy (serialPath config) then (serialPath config, [])
  else
    let wantVid := want (vendorId config) in
    let wantPid := want (productId config) in
    let single :=
      if length ports =? 1 then port_path <$> ports !! 0 else None in
    if truthy wantVid || truthy wantPid then
      let matching := List.filter (portMatches wantVid wantPid) ports in
      if 1 <=? length matching then
        (port_path <$> matching !! 0,
         if 1 <? length matching
         then [Log INFO "Multiple matching ports, using first"]
         else [])
      else (single, [])
    else (single, []).

(** The words of the discovery rules.  A device qualifies when, for each
    identifier the configuration gives, the device's identifier is the same
    up to letter case. *)
Definition sameId (wanted actual : option jsstring) : Prop :=
  truthy wanted = true →
  toLowerCase (orEmpty actual) = toLowerCase (default [] wanted).

Definition qualifies (config : Config) (p : Port) : Prop :=
  sameId (vendorId config) (port_vendorId p)
  ∧ sameId (productId config) (port_productId p).

Definition filterConfigured (config : Config) : Prop :=
  truthy (vendorId config) = true ∨ truthy (productId config) = true.

(** The path of the only enumerated device, when there is exactly one. *)
Definition onlyDevice (ports : list Port) : option jsstring :=
  match ports with
  | [p] => Some (port_path p)
  | _ => None
  end.

Definition ambiguity : LogLine := Log INFO "Multiple matching ports, using first".

End Discovery.

(** ** Serial connection and the reconnect timer
    ([connectScanner], [scheduleReconnect], [shutdown]) *)

Module Connection.
Import JS Discovery.

(** The two service variants: index.js opens the device with the
    serialport package, the older one configures it with stty and reads it
    through a file stream. *)
Inductive Variant := SerialPortPkg | SttyStream.

(** The module state: [port] (or [stream]) is the open device or [null],
    [reconnectTimer] the last timer handed out by [setTimeout] or [null];
    [timers] is the runtime's table of pending [connectScanner] timers with
    their delays, [nextTimer] its supply of fresh timer ids. *)
Record State := {
  port : option jsstring;
  reconnectTimer : option nat;
  timers : gmap nat Q;
  nextTimer : nat;
  exited : bool
}.

Definition init : State :=
  {| port := None; reconnectTimer := None; timers := ∅; nextTimer := 0;
     exited := false |}.

(** [clearTimeout(t)]: a pending timer is dropped, anything else ignored. *)
Definition clearTimeout (t : option nat) (st : State) : State :=
  match t with
  | Some id =>
      {| port := port st; reconnectTimer := reconnectTimer st;
         timers := delete id (timers st); nextTimer := nextTimer st;
         exited := exited st |}
  | None => st
  end.

(** [reconnectTimer = setTimeout(connectScanner, delay)]. *)
Definition armReconnect (delay : Q) (st : State) : State :=
  {| port := port st; reconnectTimer := Some (nextTimer st);
     timers := <[nextTimer st := delay]> (timers st);
     nextTimer := S (nextTimer st); exited := exited st |}.

Definition setPort (p : option jsstring) (st : State) : State :=
  {| port := p; reconnectTimer := reconnectTimer st; timers := timers st;
     nextTimer := nextTimer st; exited := exited st |}.

(** [connectScanner()]: [ports] is the enumeration at that moment and
    [configureOk] tells whether [configurePort] (stty variant only)
    returns without throwing. *)
Definition connectScanner (v : Variant) (config : Config)
    (ports : list Port) (configureOk : bool) (st : State) : State :=
  let st := clearTimeout (reconnectTimer st) st in
  let devicePath := fst (findSerialPath config ports) in
  if negb (truthy devicePath) then armReconnect (reconnectInterval config) st
  else
    match v with
    | SerialPortPkg => setPort devicePath st
    | SttyStream =>
        if configureOk then setPort devicePath st
        else armReconnect (reconnectInterval config) st
    end.

(** [scheduleReconnect()]. *)
Definition scheduleReconnect (config : Config) (st : State) : State :=
  let st := setPort None st in
  let st := clearTimeout (reconnectTimer st) st in
  armReconnect (reconnectInterval config) st.

(** [shutdown(signal)]: the timer is cleared, the device closed and the
    process exits. *)
Definition shutdown (st : State) : State :=
  let st := clearTimeout (reconnectTimer st) st in
  {| port := port st; reconnectTimer := reconnectTimer st; timers := timers st;
     nextTimer := nextTimer st; exited := true |}.

(** What the event loop can deliver to this module. *)
Inductive Event :=
| TimerFired (id : nat) (ports : list Port) (configureOk : bool)
| PortError
| PortClosed
| OpenFailed
| Signal.

(** One turn of the event loop.  A timer fires only while pending and is
    then no longer pending; the ["error"] and ["close"] handlers and the
    callback of [port.open] (serialport variant) all run
    [scheduleReconnect]; they stay registered on a device that has been
    dropped, so they may run in any state. *)
Inductive step (v : Variant) (config : Config) : State -> Event -> State -> Prop :=
| step_timer st id delay ports ok :
    exited st = false ->
    timers st !! id = Some delay ->
    step v config st (TimerFired id ports ok)
      (connectScanner v config ports ok
         {| port := port st; reconnectTimer := reconnectTimer st;
            timers := delete id (timers st); nextTimer := nextTimer st;
            exited := exited st |})
| step_error st :
    exited st = false ->
    step v config st PortError (scheduleReconnect config st)
| step_close st :
    exited st = false ->
    step v config st PortClosed (scheduleReconnect config st)
| step_open_failed st :
    exited st = false ->
    v = SerialPortPkg ->
    step v config st OpenFailed (scheduleReconnect config st)
| step_signal st :
    exited st = false ->
    step v config st Signal (shutdown st).

(** The states the service can be in: after the [connectScanner()] call at
    start, and after any number of turns. *)
Inductive reachable (v : Variant) (config : Config) : State -> Prop :=
| reachable_start ports ok :
    reachable v config (connectScanner v config ports ok init)
| reachable_step st ev st' :
    reachable v config st -> step v config st ev st' ->
    reachable v config st'.

(** The number of reconnect timers that are pending. *)
Definition pending (st : State) : nat := size (timers st).

(** Every pending timer is the one [reconnectTimer] refers to. *)
Definition timerOwned (st : State) : Prop :=
  ∀ id, is_Some (timers st !! id) → reconnectTimer st = Some id.

(** A read error or a close of the stream. *)
Definition isFailure (ev : Event) : Prop := ev = PortError ∨ ev = PortClosed.

(** [n] failures in a row, each handled by [scheduleReconnect]. *)
Definition failures (config : Config) (n : nat) (st : State) : State :=
  Nat.iter n (scheduleReconnect config) st.

End Connection.

(** ** HTTP delivery with retries ([sendToServer], [retry]) *)

Module Delivery.

(** The object built in the ["data"] handler for a parsed card. *)
Record Scan := { id : jsstring; data : jsstring; timestamp : jsstring }.

(** How one call of [sendToServer] ends: the response's ["end"] event
    with its status code; the request's ["error"] event; neither of them,
    ever (no time limit is set on the request); or an exception thrown
    before the request is made, by [new URL(config.endpoint)] or by
    [transport.request].  A request fires at most one of the two
    events. *)
Inductive Reply :=
| Status (statusCode : Z)
| NetworkError
| Unanswered
| Thrown.

(** What the pipeline does, in order: a POST (with the attempt number it
    was made for), a log line, a timer set for a later attempt, an
    exception that leaves [sendToServer]. *)
Inductive Effect :=
| POST (scan : Scan) (attempt : Z)
| Logged (line : LogLine)
| SetTimeout (delay : Q)
| Threw.

(** [res.statusCode >= 200 && res.statusCode < 300]. *)
Definition delivered (r : Reply) : bool :=
  match r with
  | Status c => (200 <=? c)%Z && (c <? 300)%Z
  | _ => false
  end.

(** The request was answered and not with a 2xx status: the cases that
    run [retry]. *)
Definition failed (r : Reply) : bool :=
  match r with
  | Status c => negb ((200 <=? c)%Z && (c <? 300)%Z)
  | NetworkError => true
  | _ => false
  end.

Definition isThrown (r : Reply) : bool :=
  match r with Thrown => true | _ => false end.

Definition isUnanswered (r : Reply) : bool :=
  match r with Unanswered => true | _ => false end.

(** The line logged when a request has not succeeded. *)
Definition failureLine (r : Reply) : LogLine :=
  match r with
  | Status _ => Log ERROR "POST failed"
  | _ => Log ERROR "POST error"
  end.

(** [sendToServer(scan, attempt)] followed through its callbacks: [net]
    tells how the call made for each attempt number ends.  A request that
    was answered without success runs [retry(scan, attempt)], inlined
    here: while [attempt < config.sendRetries] it logs, sets a timer of
    [config.sendRetryDelay] and that timer calls
    [sendToServer(scan, attempt + 1)]; otherwise it logs the give-up.
    The attempt number is a whole number and [config.sendRetries] any
    finite number, as in the comparison of the code; [attempt + 1] is
    exact, as it is in the code for every attempt number below 2^53. *)
Equations? sendToServer (config : Config) (net : Z -> Reply) (scan : Scan)
    (attempt : Z) : list Effect
    by wf (Z.to_nat (Qceiling (sendRetries config) - attempt)) lt :=
  sendToServer config net scan attempt :=
    if isThrown (net attempt) then [Threw]
    else
      POST scan attempt ::
      (if isUnanswered (net attempt) then []
       else if delivered (net attempt) then [Logged (Log INFO "POST OK")]
       else
         Logged (failureLine (net attempt)) ::
         match Qlt_le_dec (inject_Z attempt) (sendRetries config) with
         | left _ =>
             Logged (Log INFO "Retrying POST") ::
             SetTimeout (sendRetryDelay config) ::
             sendToServer config net scan (attempt + 1)
         | right _ => [Logged (Log ERROR "Gave up sending")]
         end).
Proof.
  assert (attempt < Qceiling (sendRetries config))%Z as Hlt.
  { rewrite Zlt_Qlt. eapply Qlt_le_trans; [eassumption | apply Qle_ceiling]. }
  lia.
Qed.

(** The call in the ["data"] handler: [sendToServer(scan)], [attempt = 1]. *)
Definition deliver (config : Config) (net : Z -> Reply) (scan : Scan) : list Effect :=
  sendToServer config net scan 1.

Definition isPost (e : Effect) : bool :=
  match e with POST _ _ => true | _ => false end.

(** The number of requests made for an event. *)
Definition attempts (tr : list Effect) : nat := length (List.filter isPost tr).

(** Every call for the event makes its request and the request is
    answered without a 2xx status or ends in a network error. *)
Definition alwaysFails (net : Z -> Reply) : Prop :=
  ∀ attempt, failed (net attempt) = true.

Definition retrying : Effect := Logged (Log INFO "Retrying POST").

Definition gaveUp : Effect := Logged (Log ERROR "Gave up sending").

(** What a delivery that never succeeds is expected to look like: [more]
    rounds of request, failure, announcement and wait, then a last request,
    its failure and the give-up; nothing follows. *)
Fixpoint failingRounds (config : Config) (net : Z -> Reply) (scan : Scan)
    (attempt : Z) (more : nat) : list Effect :=
  match more with
  | 0 => [POST scan attempt; Logged (failureLine (net attempt)); gaveUp]
  | S more' =>
      POST scan attempt :: Logged (failureLine (net attempt)) :: retrying ::
      SetTimeout (sendRetryDelay config) ::
      failingRounds config net scan (attempt + 1) more'
  end.

(** The number of requests a count allows: the count rounded up to a
    whole number, and one at least. *)
Definition allowed (config : Config) : Z :=
  Z.max 1 (Qceiling (sendRetries config)).

End Delivery.

(** ** Background auto-updater ([checkForUpdates], [startUpdateLoop]) *)

Module Updater.
Import JS.

(** The updater's view of the machine: the content of the [.version] file
    ([None] while the file does not exist) and whether the process has
    ended. *)
Record State := { versionFile : option jsstring; exited : bool }.

Inductive Effect :=
| FetchRemote
| ApplyUpdate (ok : bool)
| WriteVersion (sha : jsstring)
| WriteFailed
| SetInterval
| UnhandledRejection
| Logged (line : LogLine)
| Exit (code : Z).

(** What the outside world answers during one check: the value
    [fetchRemoteVersion()] resolves to ([null] or the trimmed body),
    whether [applyUpdate()] (download, unpack, copy over [src/]) returns
    [true], and whether [fs.writeFileSync(VERSION_FILE, ...)] returns
    rather than throws. *)
Record Tick := { remoteSha : option jsstring; applyOk : bool; writeOk : bool }.

(** What the outside world answers to the first-run fetch of
    [startUpdateLoop]: the value the promise resolves to, whether the
    write in its [then] returns rather than throws, and whether the
    runtime ends the process on the unhandled rejection of a throw. *)
Record FirstRun := { fetched : option jsstring; recorded : bool; fatal : bool }.

(** [getLocalVersion()]: the trimmed file, [null] when it cannot be read. *)
Definition getLocalVersion (st : State) : option jsstring :=
  trim <$> versionFile st.

(** [fs.writeFileSync(VERSION_FILE, sha)] that returns. *)
Definition writeVersion (sha : jsstring) (st : State) : State :=
  {| versionFile := Some sha; exited := exited st |}.

Definition exit (st : State) : State :=
  {| versionFile := versionFile st; exited := true |}.

(** [checkForUpdates()].  A write that throws is caught by the [catch] of
    the function: the error is logged, the file is as before and
    [process.exit] is not reached. *)
Definition checkForUpdates (t : Tick) (st : State) : State * list Effect :=
  match remoteSha t with
  | None => (st, [FetchRemote])
  | Some sha =>
      if isEmpty sha then (st, [FetchRemote])
      else if bool_decide (Some sha = getLocalVersion st) then (st, [FetchRemote])
      else if applyOk t then
        if writeOk t then
          (exit (writeVersion sha st),
           [FetchRemote; Logged (Log INFO "Update available");
            ApplyUpdate true; WriteVersion sha;
            Logged (Log INFO "Update applied, restarting..."); Exit 0])
        else
          (st,
           [FetchRemote; Logged (Log INFO "Update available");
            ApplyUpdate true; WriteFailed;
            Logged (Log ERROR "Update check error")])
      else
        (st,
         [FetchRemote; Logged (Log INFO "Update available");
          ApplyUpdate false; Logged (Log ERROR "Update failed")])
  end.

(** The interval is set and announced before [startUpdateLoop] returns. *)
Definition enabled : list Effect :=
  [SetInterval; Logged (Log INFO "Auto-updater enabled")].

(** [startUpdateLoop()] with the promise of its first-run fetch followed
    to its resolution; the interval it sets fires [checkForUpdates] later
    on.  A write that throws inside [then] is an unhandled rejection. *)
Definition startUpdateLoop (first : FirstRun) (st : State) : State * list Effect :=
  if negb (truthy (getLocalVersion st)) then
    match fetched first with
    | Some s =>
        if isEmpty s then (st, FetchRemote :: enabled)
        else if recorded first then
          (writeVersion s st,
           FetchRemote :: enabled
           ++ [WriteVersion s; Logged (Log INFO "Version recorded")])
        else
          ((if fatal first then exit st else st),
           FetchRemote :: enabled ++ [WriteFailed; UnhandledRejection])
    | None => (st, FetchRemote :: enabled)
    end
  else (st, enabled).

(** The interval's ticks, one [checkForUpdates] each, until the process
    ends. *)
Fixpoint ticks (ts : list Tick) (st : State) : State * list Effect :=
  match ts with
  | [] => (st, [])
  | t :: ts' =>
      if exited st then (st, [])
      else
        let '(st1, tr1) := checkForUpdates t st in
        let '(st2, tr2) := ticks ts' st1 in
        (st2, tr1 ++ tr2)
  end.

(** A run of the updater from process start. *)
Definition run (first : FirstRun) (ts : list Tick) (st : State) : State * list Effect :=
  let '(st1, tr1) := startUpdateLoop first st in
  let '(st2, tr2) := ticks ts st1 in
  (st2, tr1 ++ tr2).

(** [tr !! i] is a write of the marker that directly follows a successful
    [applyUpdate()]. *)
Definition afterReplacement (tr : list Effect) (i : nat) : Prop :=
  ∃ j, i = S j ∧ tr !! j = Some (ApplyUpdate true).

(** [tr !! i] is the write of the first run: the file gave no version, the
    fetch resolved to [written] and the write returned. *)
Definition firstRunRecord (first : FirstRun) (st : State)
    (i : nat) (written : jsstring) : Prop :=
  i = 3 ∧ truthy (getLocalVersion st) = false
  ∧ fetched first = Some written ∧ written ≠ [] ∧ recorded first = true.

(** The content of the file after the writes of [tr], from content [file]. *)
Definition afterWrites (tr : list Effect) (file : option jsstring) : option jsstring :=
  fold_left (λ f e, match e with WriteVersion sha => Some sha | _ => f end) tr file.

Definition isReplacement (e : Effect) : bool :=
  match e with ApplyUpdate true => true | _ => false end.

End Updater.

(** ** The card formats, said without the code

    The vocabulary in which the properties below are stated: what a decimal
    string is, what zero padding is, and when a line has one of the three
    formats together with the identifier that format gives it. *)

Module Formats.
Import JS Parsers.

(** A decimal digit, said without character codes. *)
Definition digit (c : ascii) : Prop := c ∈ str "0123456789".

Definition decimal (s : jsstring) : Prop := Forall digit s.

(** [n] characters ['0']. *)
Definition zeros (n : nat) : jsstring := replicate n "0"%char.

(** [s] with leading zeros added up to nine characters. *)
Definition zeroPadded (s : jsstring) : jsstring := zeros (9 - length s) ++ s.

Definition hasIssuerPrefix (s : jsstring) : Prop := ISSUER `prefix_of` s.

(** The field without its first nine characters and its last one. *)
Definition middle (seg : jsstring) : jsstring := removelast (drop 9 seg).

(** Delimited form: the line has a separator, [seg] is its first field with
    the issuer prefix, and the middle of [seg] is a non-empty decimal. *)
Definition FullForm (raw r : jsstring) : Prop :=
  "="%char ∈ raw ∧
  ∃ before seg after,
    split "=" raw = before ++ seg :: after
    ∧ Forall (λ f, ¬ hasIssuerPrefix f) before
    ∧ hasIssuerPrefix seg
    ∧ middle seg ≠ [] ∧ decimal (middle seg)
    ∧ r = zeroPadded (middle seg).

(** Long numeric form: sixteen digits that begin with the issuer prefix. *)
Definition MobileForm (raw r : jsstring) : Prop :=
  length raw = 16 ∧ decimal raw ∧ hasIssuerPrefix raw ∧ r = raw.

(** Short numeric form: one to nine digits. *)
Definition ShortForm (raw r : jsstring) : Prop :=
  1 ≤ length raw ≤ 9 ∧ decimal raw ∧ r = zeroPadded raw.

(** [raw] has one of the three formats and [r] is its identifier. *)
Definition Canonical (raw r : jsstring) : Prop :=
  FullForm raw r ∨ MobileForm raw r ∨ ShortForm raw r.

(** What is tried once the delimited format has not matched. *)
Definition nextFormats (raw : jsstring) : option jsstring :=
  match mobileParser raw with
  | Some r => Some r
  | None => shortParser raw
  end.

(** The first result in the list that is not [null]. *)
Definition firstMatch (results : list (option jsstring)) : option jsstring :=
  head (omap id results).

End Formats.

(** ** Sample configurations, devices and runs *)

Module Samples.
Import Discovery Delivery Updater.

(** A configuration with a vendor filter only, and an enumeration of one
    device of another vendor. *)
Definition vendorOnly : Config :=
  {| serialPath := None; vendorId := Some (str "09D8"); productId := None;
     baudRate := 9600%Q; endpoint := str "https://your-api.com/scan";
     authToken := None; deviceName := str "hums-dcs-s116";
     reconnectInterval := 5000%Q; sendRetries := 3%Q; sendRetryDelay := 2000%Q |}.

Definition otherVendor : Port :=
  {| port_path := str "/dev/ttyUSB0"; port_vendorId := Some (str "1a86");
     port_productId := Some (str "7523") |}.

Definition reader (path : string) : Port :=
  {| port_path := str path; port_vendorId := Some (str "09d8");
     port_productId := Some (str "0050") |}.

(** A server that answers 500 to everything, a host that is down, and an
    endpoint that is not a URL, so that [new URL] throws in every call. *)
Definition serverError : Z -> Reply := fun _ => Status 500.

Definition hostDown : Z -> Reply := fun _ => NetworkError.

Definition badEndpoint : Z -> Reply := fun _ => Thrown.

Definition sampleScan : Scan :=
  {| id := str "3f0c"; data := str "000111111";
     timestamp := str "2024-01-01T00:00:00.000Z" |}.

(** A config.json with the installer's values, one whose retry count is
    negative and one whose retry count is not whole. *)
Definition installedFile : ConfigFile :=
  {| cfg_serialPath := None; cfg_vendorId := None; cfg_productId := None;
     cfg_baudRate := Some 9600%Q;
     cfg_endpoint := Some (str "https://your-api.com/scan");
     cfg_authToken := None; cfg_deviceName := Some (str "hums-dcs-s116");
     cfg_reconnectInterval := Some 5000%Q; cfg_sendRetries := Some 3%Q;
     cfg_sendRetryDelay := Some 2000%Q |}.

Definition installed : Config :=
  {| serialPath := None; vendorId := None; productId := None;
     baudRate := 9600%Q; endpoint := str "https://your-api.com/scan";
     authToken := None; deviceName := str "hums-dcs-s116";
     reconnectInterval := 5000%Q; sendRetries := 3%Q; sendRetryDelay := 2000%Q |}.

Definition negativeRetriesFile : ConfigFile :=
  {| cfg_serialPath := None; cfg_vendorId := None; cfg_productId := None;
     cfg_baudRate := Some 9600%Q;
     cfg_endpoint := Some (str "https://your-api.com/scan");
     cfg_authToken := None; cfg_deviceName := Some (str "hums-dcs-s116");
     cfg_reconnectInterval := Some 5000%Q; cfg_sendRetries := Some (-1)%Q;
     cfg_sendRetryDelay := Some 2000%Q |}.

Definition negativeRetries : Config :=
  {| serialPath := None; vendorId := None; productId := None;
     baudRate := 9600%Q; endpoint := str "https://your-api.com/scan";
     authToken := None; deviceName := str "hums-dcs-s116";
     reconnectInterval := 5000%Q; sendRetries := (-1)%Q; sendRetryDelay := 2000%Q |}.

Definition fractionalRetriesFile : ConfigFile :=
  {| cfg_serialPath := None; cfg_vendorId := None; cfg_productId := None;
     cfg_baudRate := Some 9600%Q;
     cfg_endpoint := Some (str "https://your-api.com/scan");
     cfg_authToken := None; cfg_deviceName := Some (str "hums-dcs-s116");
     cfg_reconnectInterval := Some 5000%Q; cfg_sendRetries := Some 2.5%Q;
     cfg_sendRetryDelay := Some 2000%Q |}.

Definition fractionalRetries : Config :=
  {| serialPath := None; vendorId := None; productId := None;
     baudRate := 9600%Q; endpoint := str "https://your-api.com/scan";
     authToken := None; deviceName := str "hums-dcs-s116";
     reconnectInterval := 5000%Q; sendRetries := 2.5%Q; sendRetryDelay := 2000%Q |}.

(** A machine on which [.version] does not exist yet, and one that runs
    revision ["4f2a9c1"]. *)
Definition freshInstall : State := {| versionFile := None; exited := false |}.

Definition running : State :=
  {| versionFile := Some (str "4f2a9c1"); exited := false |}.

(** A first run whose fetch resolves to revision ["9b1d3e7"] and whose
    write returns, and one whose fetch fails. *)
Definition firstFetch : FirstRun :=
  {| fetched := Some (str "9b1d3e7"); recorded := true; fatal := true |}.

Definition noFetch : FirstRun :=
  {| fetched := None; recorded := true; fatal := true |}.

(** Two checks that find revision ["9b1d3e7"]: the first replacement
    fails, the second succeeds. *)
Definition failThenApply : list Tick :=
  [ {| remoteSha := Some (str "9b1d3e7"); applyOk := false; writeOk := true |};
    {| remoteSha := Some (str "9b1d3e7"); applyOk := true; writeOk := true |} ].

(** Two parsers that both accept every line. *)
Definition firstChar : Parsers.Parser := fun raw => Some (take 1 raw).

Definition wholeLine : Parsers.Parser := fun raw => Some raw.

End Samples.

(** ** The ["data"] handler of [connectScanner]: lines out of chunks *)

Module Reader.
Import JS Parsers.

Definition CR : ascii := "013"%char.

Definition LF : ascii := "010"%char.

(** [s.indexOf(c)] for a one-character needle: the first position, or -1. *)
Fixpoint indexOf (s : jsstring) (c : ascii) : Z :=
  match s with
  | [] => (-1)%Z
  | a :: s' =>
      if Ascii.eqb a c then 0%Z
      else let i := indexOf s' c in
           if (i =? -1)%Z then (-1)%Z else (i + 1)%Z
  end.

(** [s.slice(start)]: up to the end of the string. *)
Definition sliceFrom (s : jsstring) (start : Z) : jsstring :=
  slice s start (Z.of_nat (length s)).

(** The [idx] of one turn of the loop, [None] where the loop breaks. *)
Definition nextTerminator (buf : jsstring) : option Z :=
  let idxR := indexOf buf CR in
  let idxN := indexOf buf LF in
  if (idxR =? -1)%Z && (idxN =? -1)%Z then None
  else Some (if (idxR =? -1)%Z then idxN
             else if (idxN =? -1)%Z then idxR
             else Z.min idxR idxN).

(** What the handler does with a line: a parsed card is logged and handed
    to [sendToServer] in a scan with a fresh id and the current time; a
    line that does not parse is logged as a warning.  [sendToServer]
    starts its request and returns; a call that throws instead ends the
    process with the exception, and [Delivery] has it. *)
Inductive Outcome :=
| CardScanned (cardId : jsstring)
| ParseFailed (raw : jsstring).

(** The body of the loop after [line] has been cut out and trimmed. *)
Definition handleLine (line : jsstring) : list Outcome :=
  if isEmpty line then []
  else
    let parsed := parseCardData line in
    if truthy parsed then [CardScanned (default [] parsed)]
    else [ParseFailed line].

Definition inspect {A : Type} (a : A) : {b : A | a = b} := exist _ a eq_refl.

(** The [while (true)] loop on the buffer: the buffer left when it breaks
    and what was done on the way. *)
Equations? drain (buf : jsstring) : jsstring * list Outcome
    by wf (length buf) lt :=
  drain buf with inspect (nextTerminator buf) := {
    | exist _ None _ => (buf, [])
    | exist _ (Some idx) Hidx =>
        let line := trim (slice buf 0 idx) in
        (fst (drain (sliceFrom buf (idx + 1))),
         handleLine line ++ snd (drain (sliceFrom buf (idx + 1)))) }.
Proof.
  all: assert (∀ s c, indexOf s c = (-1)%Z
                      ∨ (0 ≤ indexOf s c < Z.of_nat (length s))%Z) as Hrange
    by (intros s c; induction s as [| a s IH]; simpl; [by left |];
        destruct (Ascii.eqb a c); [right; lia |];
        destruct (Z.eqb_spec (indexOf s c) (-1)); [by left | right; lia]).
  all: unfold nextTerminator in Hidx;
    pose proof (Hrange buf CR) as HR; pose proof (Hrange buf LF) as HN;
    destruct (Z.eqb_spec (indexOf buf CR) (-1));
    destruct (Z.eqb_spec (indexOf buf LF) (-1));
    simpl in Hidx; try discriminate Hidx;
    injection Hidx as <-;
    unfold sliceFrom, slice;
    rewrite length_take, length_drop;
    repeat match goal with
           | |- context [(?a <? 0)%Z] => destruct (Z.ltb_spec a 0)
           end; lia.
Qed.

(** The handler: [buf += chunk.toString("utf8")], then the loop.  The
    chunk is a [Buffer] of bytes; [toString] stands for its decoding by
    the runtime. *)
Definition onData (toString : list byte -> jsstring) (buf : jsstring)
    (chunk : list byte) : jsstring * list Outcome :=
  drain (buf ++ toString chunk).

(** Words for the properties: a terminator, and a string without one. *)
Definition isTerminator (c : ascii) : Prop := c = CR ∨ c = LF.

Definition terminatorFree (s : jsstring) : Prop := Forall (λ c, ¬ isTerminator c) s.

End Reader.

(** ** Lines of a buffer, said without the loop *)

Module ReaderWords.
Import JS Parsers Reader.

Definition terminates (c : ascii) : bool := Ascii.eqb c CR || Ascii.eqb c LF.

(** The complete lines of [s], every CR and every LF ending one, and the
    text after the last of them. *)
Fixpoint cut (s : jsstring) : list jsstring * jsstring :=
  match s with
  | [] => ([], [])
  | c :: s' =>
      let '(ls, tail) := cut s' in
      if terminates c then ([] :: ls, tail)
      else match ls with
           | [] => ([], c :: tail)
           | l :: ls' => ((c :: l) :: ls', tail)
           end
  end.

(** Only white space, or nothing at all. *)
Definition blank (s : jsstring) : Prop := Forall (λ c, isSpace c = true) s.

(** A decoding splits at a cut of the bytes when decoding the two parts
    one after the other gives the decoding of the whole: the cut does not
    fall inside the bytes of one character. *)
Definition splitsAt (toString : list byte -> jsstring) (chunk1 chunk2 : list byte) : Prop :=
  toString (chunk1 ++ chunk2) = toString chunk1 ++ toString chunk2.

(** The decoding of bytes that are all ASCII, and the bytes of an ASCII
    text. *)
Definition asciiText (chunk : list byte) : jsstring := map ascii_of_byte chunk.

Definition bytesOf (s : string) : list byte := map byte_of_ascii (str s).

Definition crlf : list byte := map byte_of_ascii [CR; LF].

(** What may be done with a line: a scanned card has a decimal identifier
    of at least nine characters that is the identifier of the trimmed
    line; a warning is about a trimmed line that is not empty and has none
    of the formats. *)
Definition outcomeOf (line : jsstring) (o : Outcome) : Prop :=
  match o with
  | CardScanned cardId =>
      parseCardData (trim line) = Some cardId
      ∧ Formats.decimal cardId ∧ 9 ≤ length cardId
  | ParseFailed raw =>
      raw = trim line ∧ raw ≠ [] ∧ parseCardData raw = None
  end.

End ReaderWords.

(** ** Words for the delivery traces *)

Module DeliveryWords.
Import Delivery.

Definition postOk : Effect := Logged (Log INFO "POST OK").

(** The attempt numbers of the requests, in the order they are made. *)
Definition postNumbers (tr : list Effect) : list Z :=
  omap (λ e, match e with POST _ attempt => Some attempt | _ => None end) tr.

(** The scans the requests carry. *)
Definition postScans (tr : list Effect) : list Scan :=
  omap (λ e, match e with POST scan _ => Some scan | _ => None end) tr.

(** The delays of the timers set, in order. *)
Definition delays (tr : list Effect) : list Q :=
  omap (λ e, match e with SetTimeout delay => Some delay | _ => None end) tr.

(** The requests and the timers of a trace in the order they happen: the
    attempt number of a request on the left, the delay of a timer on the
    right. *)
Definition schedule (tr : list Effect) : list (Z + Q) :=
  omap (λ e, match e with
             | POST _ attempt => Some (inl attempt)
             | SetTimeout delay => Some (inr delay)
             | _ => None
             end) tr.

(** [n] requests numbered from [attempt] on, with one timer of [delay]
    between each request and the next and none elsewhere. *)
Fixpoint alternating (delay : Q) (attempt : Z) (n : nat) : list (Z + Q) :=
  match n with
  | 0 => []
  | 1 => [inl attempt]
  | S n' => inl attempt :: inr delay :: alternating delay (attempt + 1) n'
  end.

Definition isThrew (e : Effect) : bool :=
  match e with Threw => true | _ => false end.

(** The timer left without a request: one was set and the call it made
    threw before its request. *)
Definition lostTimer (delay : Q) (tr : list Effect) : list (Z + Q) :=
  if existsb isThrew tr && (0 <? attempts tr)%nat then [inr delay] else [].

(** The four ways a delivery can end. *)
Definition endsDelivered (tr : list Effect) : Prop :=
  last tr = Some postOk ∧ (gaveUp ∉ tr) ∧ (Threw ∉ tr).

Definition endsGivenUp (tr : list Effect) : Prop :=
  last tr = Some gaveUp ∧ (postOk ∉ tr) ∧ (Threw ∉ tr).

Definition endsWaiting (tr : list Effect) : Prop :=
  (∃ scan attempt, last tr = Some (POST scan attempt))
  ∧ (postOk ∉ tr) ∧ (gaveUp ∉ tr) ∧ (Threw ∉ tr).

Definition endsThrown (tr : list Effect) : Prop :=
  last tr = Some Threw ∧ (postOk ∉ tr) ∧ (gaveUp ∉ tr).

(** A server that rejects the first two requests and accepts the third,
    and one that answers the first request with an error and never
    answers the second. *)
Definition thirdTime : Z -> Reply :=
  fun attempt => if (attempt <? 3)%Z then Status 503 else Status 201.

Definition goesSilent : Z -> Reply :=
  fun attempt => if (attempt <? 2)%Z then Status 503 else Unanswered.

End DeliveryWords.

(** ** Words for the updater's runs *)

Module UpdaterWords.
Import JS Updater.

(** Neither the first nor the last character is white space (the
    no-break space, code 160, counts as white space here). *)
Definition tight (s : jsstring) : Prop :=
  ∀ c, head s = Some c ∨ last s = Some c → isSpace c = false ∧ code c ≠ 160.


(** The number of successful code replacements in a trace. *)
Definition replacements (tr : list Effect) : nat :=
  length (List.filter isReplacement tr).

(** A revision like the one GitHub answers, and that answer with its line
    end as a file would hold it. *)
Definition revision : jsstring := str "9b1d3e7".

Definition revisionLine : jsstring := str "9b1d3e7" ++ [Reader.LF].

(** A check that finds [revision], replaces the code and records it; one
    whose write of [.version] throws after the code was replaced. *)
Definition applies : Tick :=
  {| remoteSha := Some revision; applyOk := true; writeOk := true |}.



End UpdaterWords.

(** ** Words for the connection states *)

Module ConnectionWords.
Import Connection.

(** The device is open and no timer is pending. *)
Definition connected (st : State) : Prop :=
  is_Some (port st) ∧ timers st = ∅.

(** No device is open and one timer, the one [reconnectTimer] refers to,
    is pending for [reconnectInterval]. *)
Definition scheduled (config : Config) (st : State) : Prop :=
  port st = None
  ∧ ∃ id, reconnectTimer st = Some id
          ∧ timers st = {[ id := reconnectInterval config ]}.

End ConnectionWords.

(** ** Enumeration of the serial devices
    ([discoverLinuxPorts], [discoverMacPorts]) *)

Module Enumeration.
Import JS Discovery Connection.

(** [/^tty\.(usb|usbserial|usbmodem)/.test(name)] (index.js). *)
Definition re_tty (name : jsstring) : bool :=
  startsWith name (str "tty.")
  && (startsWith (drop 4 name) (str "usb")
      || startsWith (drop 4 name) (str "usbserial")
      || startsWith (drop 4 name) (str "usbmodem")).

(** The test on a name of [/dev]: the regular expression in index.js,
    [name.startsWith("tty.usb")] in the stty variant. *)
Definition macTest (v : Variant) (name : jsstring) : bool :=
  match v with
  | SerialPortPkg => re_tty name
  | SttyStream => startsWith name (str "tty.usb")
  end.

(** [discoverMacPorts()]; [dev] is what [fs.readdirSync("/dev")] returns,
    [None] when it throws. *)
Definition discoverMacPorts (v : Variant) (dev : option (list jsstring)) : list Port :=
  match dev with
  | None => []
  | Some names =>
      map (λ name, {| port_path := str "/dev/" ++ name;
                      port_vendorId := None; port_productId := None |})
          (List.filter (macTest v) names)
  end.

(** What the file system answers for one name of [/dev/serial/by-id]:
    the target of the link ([None] when [realpathSync] throws), whether the
    tty's device directory resolves, and the contents of the [idVendor]
    and [idProduct] files ([None] when the read throws). *)
Record ByIdEntry := {
  resolved : option jsstring;
  deviceFound : bool;
  idVendorFile : option jsstring;
  idProductFile : option jsstring
}.

(** The inner [try]: the two identifiers are read one after the other and
    the first failure leaves what remains at [null]. *)
Definition readIds (e : ByIdEntry) : option jsstring * option jsstring :=
  if deviceFound e then
    match idVendorFile e with
    | None => (None, None)
    | Some v =>
        match idProductFile e with
        | None => (Some (trim v), None)
        | Some p => (Some (trim v), Some (trim p))
        end
    end
  else (None, None).

(** The loop under the outer [try]: a link that cannot be resolved throws
    out of the loop, and the ports pushed so far are returned. *)
Fixpoint scanById (entries : list ByIdEntry) : list Port :=
  match entries with
  | [] => []
  | e :: rest =>
      match resolved e with
      | None => []
      | Some target =>
          {| port_path := target; port_vendorId := fst (readIds e);
             port_productId := snd (readIds e) |} :: scanById rest
      end
  end.

(** [discoverLinuxPorts()]; [byId] is what
    [fs.readdirSync("/dev/serial/by-id")] returns, [None] when it throws. *)
Definition discoverLinuxPorts (byId : option (list ByIdEntry)) : list Port :=
  match byId with
  | None => []
  | Some entries => scanById entries
  end.

(** A by-id entry of a reader whose sysfs files end with a line feed, and
    a link whose target is gone. *)
Definition readerEntry (path : string) : ByIdEntry :=
  {| resolved := Some (str path); deviceFound := true;
     idVendorFile := Some (str "09d8" ++ [Reader.LF]);
     idProductFile := Some (str "0050" ++ [Reader.LF]) |}.

Definition danglingEntry : ByIdEntry :=
  {| resolved := None; deviceFound := false;
     idVendorFile := None; idProductFile := None |}.

End Enumeration.

(** ** The number a decimal string writes *)

Module Numbers.

Definition digitValue (c : ascii) : nat := code c - 48.

(** The number written by [s], most significant digit first. *)
Definition value (s : jsstring) : nat :=
  fold_left (λ acc c, 10 * acc + digitValue c) s 0.

End Numbers.

(** * Properties *)

(** ** Facts about the string operations *)

Module JSFacts.
Import JS Formats.

Lemma isDigit_digit (c : ascii) : isDigit c = true ↔ digit c.
Proof.
  unfold digit. split.
  - destruct c as [[] [] [] [] [] [] [] []]; vm_compute; intros H;
      try discriminate; set_solver.
  - intros H. vm_compute in H.
    repeat (apply elem_of_cons in H as [-> | H]; [reflexivity |]).
    by apply elem_of_nil in H.
Qed.

Lemma forallb_isDigit (s : jsstring) : forallb isDigit s = true ↔ decimal s.
Proof.
  unfold decimal. rewrite forallb_forall, Forall_forall.
  split; intros H c Hc; apply isDigit_digit, H;
    by apply list_elem_of_In.
Qed.

Lemma isEmpty_true (s : jsstring) : isEmpty s = true ↔ s = [].
Proof. by destruct s. Qed.

Lemma isEmpty_false (s : jsstring) : isEmpty s = false ↔ s ≠ [].
Proof. by destruct s. Qed.

Lemma re_digits_spec (s : jsstring) : re_digits s = true ↔ s ≠ [] ∧ decimal s.
Proof.
  unfold re_digits. rewrite andb_true_iff, negb_true_iff.
  by rewrite isEmpty_false, forallb_isDigit.
Qed.

Lemma includes_elem (s : jsstring) (c : ascii) : includes s c = true ↔ c ∈ s.
Proof.
  unfold includes. rewrite existsb_exists. split.
  - intros (x & Hx & Heq). apply Ascii.eqb_eq in Heq. subst.
    by apply list_elem_of_In.
  - intros H. exists c. split; [by apply list_elem_of_In | apply Ascii.eqb_refl].
Qed.

Lemma startsWith_prefix (s p : jsstring) : startsWith s p = true ↔ p `prefix_of` s.
Proof.
  revert s. induction p as [| a p IH]; intros s; simpl.
  - split; [intros _; apply prefix_nil | done].
  - destruct s as [| b s].
    + split; [done | intros H; by apply prefix_nil_inv in H].
    + rewrite andb_true_iff, Ascii.eqb_eq, IH. split.
      * intros [-> H]. by apply prefix_cons.
      * intros H. split; [by apply prefix_cons_inv_1 in H | by apply prefix_cons_inv_2 in H].
Qed.

Lemma startsWith_not_prefix (s p : jsstring) : startsWith s p = false ↔ ¬ p `prefix_of` s.
Proof. rewrite <- startsWith_prefix. by destruct (startsWith s p). Qed.

(** [seg.slice(9, -1)] drops the first nine characters and the last one. *)
Lemma slice_9_m1 (s : jsstring) : slice s 9 (-1) = removelast (drop 9 s).
Proof.
  unfold slice. cbn [Z.ltb Z.compare].
  rewrite removelast_firstn_len, length_drop.
  destruct (decide (length s ≤ 9)) as [Hle | Hgt].
  - rewrite (drop_ge s 9) by lia. rewrite Z.min_r by lia.
    rewrite Nat2Z.id, drop_all. by rewrite !take_nil.
  - rewrite Z.min_l, Z.max_l by lia.
    change (Z.to_nat 9) with 9. f_equal. lia.
Qed.

Lemma concat_replicate_single (n : nat) (c : ascii) :
  concat (replicate n [c]) = replicate n c.
Proof. induction n as [| n IH]; simpl; [done | by rewrite IH]. Qed.

(** [s.padStart(n, "0")] puts the missing zeros in front. *)
Lemma padStart_zeros (s : jsstring) (n : nat) :
  padStart s n (str "0") = zeros (n - length s) ++ s.
Proof.
  unfold padStart, zeros. cbn [str list_ascii_of_string isEmpty orb].
  rewrite orb_false_r. destruct (Nat.eqb_spec (n - length s) 0) as [-> | Hne].
  - done.
  - rewrite concat_replicate_single.
    by rewrite take_ge by (rewrite length_replicate; lia).
Qed.

Lemma length_padStart_zeros (s : jsstring) (n : nat) :
  length (padStart s n (str "0")) = Nat.max n (length s).
Proof. rewrite padStart_zeros, length_app. unfold zeros. rewrite length_replicate. lia. Qed.

Lemma decimal_zeros (n : nat) : decimal (zeros n).
Proof.
  unfold decimal, zeros. apply Forall_replicate. unfold digit. vm_compute. set_solver.
Qed.

Lemma decimal_padStart (s : jsstring) (n : nat) :
  decimal s → decimal (padStart s n (str "0")).
Proof.
  intros H. rewrite padStart_zeros. apply Forall_app. split; [apply decimal_zeros | done].
Qed.

(** [split] never returns the empty array. *)
Lemma split_nonempty (sep : ascii) (s : jsstring) : split sep s ≠ [].
Proof.
  destruct s as [| c s]; simpl; [done |].
  destruct (Ascii.eqb c sep); [done |]. by destruct (split sep s).
Qed.

(** The fields of [split] joined with the separator give the string back. *)
Lemma join_split (sep : ascii) (s : jsstring) : join sep (split sep s) = s.
Proof.
  induction s as [| c s IH]; simpl; [done |].
  destruct (Ascii.eqb_spec c sep) as [-> | Hne].
  - pose proof (split_nonempty sep s) as Hs.
    destruct (split sep s) as [| f fs] eqn:E; [done |].
    simpl in *. by rewrite IH.
  - pose proof (split_nonempty sep s) as Hs.
    destruct (split sep s) as [| f fs] eqn:E; [done |].
    destruct fs as [| g fs]; simpl in *; by rewrite <- IH.
Qed.

(** No field of [split] contains the separator. *)
Lemma split_fields_free (sep : ascii) (s : jsstring) :
  Forall (λ f, sep ∉ f) (split sep s).
Proof.
  induction s as [| c s IH]; simpl.
  - repeat constructor. set_solver.
  - destruct (Ascii.eqb_spec c sep) as [-> | Hne].
    + constructor; [set_solver | done].
    + pose proof (split_nonempty sep s) as Hs.
      destruct (split sep s) as [| f fs]; [done |].
      inversion IH; subst. constructor; [set_solver | done].
Qed.

(** Fields that are free of the separator are what [split] finds in their
    join. *)
Lemma split_app_sep (sep : ascii) (f rest : jsstring) :
  sep ∉ f → split sep (f ++ sep :: rest) = f :: split sep rest.
Proof.
  induction f as [| c f IH]; simpl; intros Hf.
  - by rewrite Ascii.eqb_refl.
  - destruct (Ascii.eqb_spec c sep) as [-> | Hne]; [set_solver |].
    rewrite IH; [done | set_solver].
Qed.

Lemma split_free (sep : ascii) (f : jsstring) : sep ∉ f → split sep f = [f].
Proof.
  induction f as [| c f IH]; simpl; intros Hf; [done |].
  destruct (Ascii.eqb_spec c sep) as [-> | Hne]; [set_solver |].
  rewrite IH; [done | set_solver].
Qed.

Lemma split_join (sep : ascii) (fields : list jsstring) :
  fields ≠ [] → Forall (λ f, sep ∉ f) fields →
  split sep (join sep fields) = fields.
Proof.
  induction fields as [| f fs IH]; [done |]. intros _ Hall.
  inversion Hall as [| ? ? Hf Hfs]; subst.
  destruct fs as [| g fs].
  - simpl. by apply split_free.
  - change (join sep (f :: g :: fs)) with (f ++ sep :: join sep (g :: fs)).
    rewrite split_app_sep by done. by rewrite IH.
Qed.

(** A string has the separator exactly when it has at least two fields. *)
Lemma includes_split (sep : ascii) (s : jsstring) :
  includes s sep = true ↔ 2 ≤ length (split sep s).
Proof.
  rewrite includes_elem. induction s as [| c s IH]; simpl.
  - split; [set_solver | lia].
  - pose proof (split_nonempty sep s) as Hs.
    destruct (Ascii.eqb_spec c sep) as [-> | Hne].
    + split; [| set_solver]. intros _. destruct (split sep s); [done | simpl; lia].
    + destruct (split sep s) as [| f fs]; [done |].
      rewrite elem_of_cons. simpl in *. split.
      * intros [? | H]; [congruence | by apply IH].
      * intros H. right. by apply IH.
Qed.

(** [find] returns the first field that passes the test. *)
Lemma find_first {A} (f : A → bool) (before : list A) (x : A) (after : list A) :
  Forall (λ y, f y = false) before → f x = true →
  List.find f (before ++ x :: after) = Some x.
Proof.
  intros Hb Hx. induction Hb as [| y before Hy _ IH]; simpl.
  - by rewrite Hx.
  - by rewrite Hy.
Qed.

Lemma find_none {A} (f : A → bool) (l : list A) :
  Forall (λ y, f y = false) l → List.find f l = None.
Proof. intros H. induction H as [| y l Hy _ IH]; simpl; [done | by rewrite Hy]. Qed.

Lemma find_split {A} (f : A → bool) (l : list A) (x : A) :
  List.find f l = Some x →
  ∃ before after, l = before ++ x :: after
                  ∧ Forall (λ y, f y = false) before ∧ f x = true.
Proof.
  induction l as [| y l IH]; simpl; [done |].
  destruct (f y) eqn:E.
  - intros [= ->]. exists [], l. by repeat split.
  - intros H. destruct (IH H) as (b & a & -> & Hb & Hx).
    exists (y :: b), a. repeat split; [| done]. by constructor.
Qed.

End JSFacts.

(** ** The card parsers *)

Module ParserFacts.
Import JS Parsers Formats JSFacts.

Lemma issuer_length : length ISSUER = 6.
Proof. reflexivity. Qed.

Lemma issuer_decimal : decimal ISSUER.
Proof.
  unfold decimal, ISSUER. apply Forall_forall. intros c Hc.
  apply isDigit_digit. vm_compute in Hc.
  repeat (apply elem_of_cons in Hc as [-> | Hc]; [reflexivity |]).
  by apply elem_of_nil in Hc.
Qed.

Lemma separator_not_digit : ¬ digit "="%char.
Proof. intros H. apply isDigit_digit in H. discriminate H. Qed.

Lemma decimal_no_separator (s : jsstring) : decimal s → includes s "=" = false.
Proof.
  intros H. destruct (includes s "=") eqn:E; [| done].
  apply includes_elem in E. exfalso. apply separator_not_digit.
  unfold decimal in H. rewrite Forall_forall in H. by apply H.
Qed.

Lemma prefix_nonempty (s : jsstring) : hasIssuerPrefix s → isEmpty s = false.
Proof. intros [k ->]. reflexivity. Qed.

(** The test of [fullParser] on the body, in words. *)
Lemma body_test (seg : jsstring) :
  isEmpty (slice seg 9 (-1)) || negb (re_digits (slice seg 9 (-1))) = false
  ↔ middle seg ≠ [] ∧ decimal (middle seg).
Proof.
  rewrite slice_9_m1. fold (middle seg).
  rewrite orb_false_iff, negb_false_iff, re_digits_spec, isEmpty_false. tauto.
Qed.

Lemma fullParser_match (raw : jsstring) (before : list jsstring) (seg : jsstring)
    (after : list jsstring) :
  "="%char ∈ raw →
  split "=" raw = before ++ seg :: after →
  Forall (λ f, ¬ hasIssuerPrefix f) before → hasIssuerPrefix seg →
  fullParser raw =
    if isEmpty (slice seg 9 (-1)) || negb (re_digits (slice seg 9 (-1))) then None
    else Some (zeroPadded (middle seg)).
Proof.
  intros Hsep Hsplit Hbefore Hseg. unfold fullParser.
  apply includes_elem in Hsep. rewrite Hsep. cbn [negb].
  rewrite Hsplit, (find_first _ before seg after).
  - rewrite (prefix_nonempty seg Hseg).
    destruct (_ || _); [done |].
    by rewrite padStart_zeros, slice_9_m1.
  - eapply Forall_impl; [exact Hbefore |]. intros f Hf. by apply startsWith_not_prefix.
  - by apply startsWith_prefix.
Qed.

Lemma fullParser_no_field (raw : jsstring) :
  Forall (λ f, ¬ hasIssuerPrefix f) (split "=" raw) → fullParser raw = None.
Proof.
  intros H. unfold fullParser. destruct (negb _); [done |].
  rewrite find_none; [done |].
  eapply Forall_impl; [exact H |]. intros f Hf. by apply startsWith_not_prefix.
Qed.

Lemma fullParser_spec (raw r : jsstring) : fullParser raw = Some r ↔ FullForm raw r.
Proof.
  split.
  - unfold fullParser. destruct (includes raw "=") eqn:Hinc; [| done].
    cbn [negb]. destruct (List.find _ _) as [seg |] eqn:Hfind; [| done].
    destruct (isEmpty seg) eqn:Hne; [done |].
    destruct (_ || _) eqn:Hbody; [done |]. intros [= <-].
    apply body_test in Hbody as [Hmid Hdec].
    apply find_split in Hfind as (before & after & Hsplit & Hb & Hs).
    split; [by apply includes_elem |].
    exists before, seg, after. repeat split; try done.
    + eapply Forall_impl; [exact Hb |]. intros f Hf. by apply startsWith_not_prefix.
    + by apply startsWith_prefix.
    + by rewrite padStart_zeros, slice_9_m1.
  - intros (Hsep & before & seg & after & Hsplit & Hb & Hs & Hmid & Hdec & ->).
    rewrite (fullParser_match raw before seg after) by done.
    destruct (_ || _) eqn:Hbody; [| done].
    assert (isEmpty (slice seg 9 (-1)) || negb (re_digits (slice seg 9 (-1))) = false)
      as Hf by by apply body_test.
    congruence.
Qed.

Lemma prefix_drop (s : jsstring) : hasIssuerPrefix s → s = ISSUER ++ drop 6 s.
Proof. intros [k ->]. by rewrite drop_app_length' by reflexivity. Qed.

Lemma mobileParser_spec (raw r : jsstring) : mobileParser raw = Some r ↔ MobileForm raw r.
Proof.
  unfold mobileParser, re_mobile, MobileForm. split.
  - destruct (_ && _) eqn:E; [| done]. intros [= <-].
    apply andb_true_iff in E as [E Hdig]. apply andb_true_iff in E as [Hpre Hlen].
    apply startsWith_prefix in Hpre. apply Nat.eqb_eq in Hlen.
    apply forallb_isDigit in Hdig. fold (hasIssuerPrefix raw) in Hpre.
    repeat split; try done.
    + rewrite (prefix_drop raw Hpre), length_app, Hlen. reflexivity.
    + rewrite (prefix_drop raw Hpre). apply Forall_app. split; [apply issuer_decimal | done].
  - intros (Hlen & Hdec & Hpre & ->).
    assert (startsWith raw ISSUER = true) as -> by by apply startsWith_prefix.
    assert ((length (drop 6 raw) =? 10) = true) as ->.
    { apply Nat.eqb_eq. rewrite length_drop. lia. }
    assert (forallb isDigit (drop 6 raw) = true) as ->; [| done].
    apply forallb_isDigit. by apply Forall_drop.
Qed.

Lemma shortParser_spec (raw r : jsstring) : shortParser raw = Some r ↔ ShortForm raw r.
Proof.
  unfold shortParser, ShortForm, CARD_ID_LENGTH. split.
  - destruct (_ && _) eqn:E; [| done]. intros [= <-].
    apply andb_true_iff in E as [Hre Hlen]. apply re_digits_spec in Hre as [Hne Hdec].
    apply Nat.leb_le in Hlen. repeat split; try done.
    + destruct raw; [done | simpl; lia].
    + by rewrite padStart_zeros.
  - intros ([Hlo Hhi] & Hdec & ->).
    assert (re_digits raw = true) as ->.
    { apply re_digits_spec. split; [| done]. intros ->. simpl in Hlo. lia. }
    assert ((length raw <=? 9) = true) as -> by by apply Nat.leb_le.
    by rewrite padStart_zeros.
Qed.

Lemma parseCardData_unfold (raw : jsstring) :
  parseCardData raw =
    match fullParser raw with
    | Some r => Some r
    | None => nextFormats raw
    end.
Proof.
  unfold parseCardData, builtinParsers, nextFormats. simpl.
  destruct (fullParser raw); [done |]. destruct (mobileParser raw); [done |].
  by destruct (shortParser raw).
Qed.

Lemma createCardParser_firstMatch (parsers : list Parser) (raw : jsstring) :
  createCardParser parsers raw = firstMatch ((λ p, p raw) <$> parsers).
Proof.
  unfold firstMatch. induction parsers as [| p ps IH]; simpl; [done |].
  destruct (p raw); simpl; [done | exact IH].
Qed.

(** Whatever the normalizer returns is a decimal string of at least nine
    characters. *)
Lemma parseCardData_decimal (raw r : jsstring) :
  parseCardData raw = Some r → decimal r ∧ 9 ≤ length r.
Proof.
  rewrite parseCardData_unfold. unfold nextFormats.
  destruct (fullParser raw) as [r1 |] eqn:Hfull.
  { intros [= <-]. apply fullParser_spec in Hfull
      as (_ & before & seg & after & _ & _ & _ & _ & Hdec & ->).
    unfold zeroPadded, zeros. split.
    - apply Forall_app. split; [apply decimal_zeros | done].
    - rewrite length_app, length_replicate. lia. }
  destruct (mobileParser raw) as [r2 |] eqn:Hmob.
  { intros [= <-]. apply mobileParser_spec in Hmob as (Hlen & Hdec & _ & ->).
    split; [done | lia]. }
  intros Hshort. apply shortParser_spec in Hshort as (_ & Hdec & ->).
  unfold zeroPadded, zeros. split.
  - apply Forall_app. split; [apply decimal_zeros | done].
  - rewrite length_app, length_replicate. lia.
Qed.

End ParserFacts.

(** ** The normalizer: results *)

Module Normalizer.
Import JS Parsers Formats JSFacts ParserFacts Samples.

(** C1.  The delimited format does not bound the length of what it returns:
    [padStart] only ever adds characters, and unlike [shortParser] (which
    tests [raw.length <= CARD_ID_LENGTH]) [fullParser] has no length test.
    A field with more than nine characters between its ninth and its last
    gives an identifier that is neither nine nor sixteen digits long. *)
Theorem fullParser_overlong_identifier :
  parseCardData (str "1570=900000001=00=60177000012345678901")
    = Some (str "1234567890")
  ∧ length (str "1234567890") = 10
  ∧ shortParser (str "1234567890") = None.
Proof. vm_compute. done. Qed.

(** C2.  On a line with the separator ['='], the delimited format looks at
    the first field that begins with the issuer prefix; it removes the
    first nine characters and the last one; when what is left is a
    non-empty decimal string, the normalizer returns it with zeros added in
    front up to nine characters; when it is empty or not decimal, or when
    no field has the prefix, the delimited format gives no match and the
    result is that of the formats tried next.  The line
    ["1570=900000001=00=6017700001111110"] gives ["000111111"]. *)
Theorem fullParser_delimited_form (raw : jsstring) (before : list jsstring)
    (seg : jsstring) (after : list jsstring) :
  "="%char ∈ raw →
  split "=" raw = before ++ seg :: after →
  Forall (λ f, ¬ hasIssuerPrefix f) before →
  (hasIssuerPrefix seg →
     (middle seg ≠ [] ∧ decimal (middle seg) →
        fullParser raw = Some (zeros (9 - length (middle seg)) ++ middle seg)
        ∧ parseCardData raw = Some (zeros (9 - length (middle seg)) ++ middle seg))
     ∧ (middle seg = [] ∨ ¬ decimal (middle seg) →
        fullParser raw = None ∧ parseCardData raw = nextFormats raw))
  ∧ (Forall (λ f, ¬ hasIssuerPrefix f) (seg :: after) →
        fullParser raw = None ∧ parseCardData raw = nextFormats raw)
  ∧ parseCardData (str "1570=900000001=00=6017700001111110")
      = Some (str "000111111").
Proof.
  intros Hsep Hsplit Hbefore. split; [| split].
  - intros Hseg.
    pose proof (fullParser_match raw before seg after Hsep Hsplit Hbefore Hseg) as Hfull.
    split.
    + intros Hbody. apply body_test in Hbody. rewrite Hbody in Hfull.
      rewrite parseCardData_unfold, Hfull. done.
    + intros Hbody.
      destruct (_ || _) eqn:Htest in Hfull.
      * by rewrite parseCardData_unfold, Hfull.
      * apply body_test in Htest. tauto.
  - intros Hrest.
    assert (fullParser raw = None) as Hfull.
    { apply fullParser_no_field. rewrite Hsplit. by apply Forall_app. }
    by rewrite parseCardData_unfold, Hfull.
  - vm_compute. reflexivity.
Qed.

Lemma fullParser_delimited_form_witness :
  "="%char ∈ str "1570=900000001=00=6017700001111110"
  ∧ parseCardData (str "1570=900000001=00=6017700001111110")
      = Some (str "000111111").
Proof.
  split.
  - apply includes_elem. reflexivity.
  - refine (proj2 (proj1 (proj1
      (fullParser_delimited_form
         (str "1570=900000001=00=6017700001111110")
         [str "1570"; str "900000001"; str "00"] (str "6017700001111110") []
         _ _ _) _) _)).
    + apply includes_elem. reflexivity.
    + reflexivity.
    + repeat constructor; intros H; apply startsWith_prefix in H; discriminate H.
    + apply startsWith_prefix. reflexivity.
    + split; [discriminate |].
      apply forallb_isDigit. reflexivity.
Defined.

(** C3.  [createCardParser] returns the first result, in list order, that
    is not [null]; the normalizer is that loop over delimited, long
    numeric, short numeric, so a line is given to the earliest format that
    matches it, whatever the later ones would return. *)
Theorem createCardParser_first_match_wins (parsers : list Parser) (raw : jsstring) :
  createCardParser parsers raw = firstMatch ((λ p, p raw) <$> parsers)
  ∧ builtinParsers = [fullParser; mobileParser; shortParser]
  ∧ parseCardData raw =
      match fullParser raw with
      | Some r => Some r
      | None =>
          match mobileParser raw with
          | Some r => Some r
          | None => shortParser raw
          end
      end
  ∧ ∀ (earlier : list Parser) (p : Parser) (later : list Parser) (r : jsstring),
      parsers = earlier ++ p :: later →
      Forall (λ q, q raw = None) earlier → p raw = Some r →
      createCardParser parsers raw = Some r.
Proof.
  split; [apply createCardParser_firstMatch |]. split; [reflexivity |]. split.
  - rewrite parseCardData_unfold. reflexivity.
  - intros earlier p later r -> Hearlier Hp.
    induction Hearlier as [| q earlier Hq _ IH]; simpl.
    + by rewrite Hp.
    + by rewrite Hq.
Qed.

Lemma createCardParser_first_match_wins_witness :
  createCardParser [firstChar; wholeLine] (str "111111") = Some (str "1")
  ∧ createCardParser [wholeLine; firstChar] (str "111111") = Some (str "111111").
Proof.
  split.
  - exact (proj2 (proj2 (proj2
      (createCardParser_first_match_wins [firstChar; wholeLine] (str "111111"))))
      [] firstChar [wholeLine] (str "1") eq_refl (Forall_nil_2 _) eq_refl).
  - exact (proj2 (proj2 (proj2
      (createCardParser_first_match_wins [wholeLine; firstChar] (str "111111"))))
      [] wholeLine [firstChar] (str "111111") eq_refl (Forall_nil_2 _) eq_refl).
Defined.

(** C8.  For a decimal string of one to nine digits the short form returns
    the string with zeros added in front up to nine characters, and so
    does the normalizer; the normalizer maps that result to itself. *)
Theorem shortParser_zero_pads_idempotent (raw : jsstring) :
  1 ≤ length raw ≤ 9 → decimal raw →
  shortParser raw = Some (zeros (9 - length raw) ++ raw)
  ∧ length (zeros (9 - length raw) ++ raw) = 9
  ∧ parseCardData raw = Some (zeros (9 - length raw) ++ raw)
  ∧ parseCardData (zeros (9 - length raw) ++ raw)
      = Some (zeros (9 - length raw) ++ raw).
Proof.
  intros Hlen Hdec.
  assert (∀ s, 1 ≤ length s ≤ 9 → decimal s →
            shortParser s = Some (zeroPadded s)
            ∧ parseCardData s = Some (zeroPadded s)) as Hshort.
  { intros s Hl Hd.
    assert (shortParser s = Some (zeroPadded s)) as Hs
      by by apply shortParser_spec.
    split; [done |].
    rewrite parseCardData_unfold. unfold fullParser, nextFormats.
    rewrite (decimal_no_separator s Hd). cbn [negb].
    destruct (mobileParser s) as [r |] eqn:Hm; [| done].
    apply mobileParser_spec in Hm as (Hl16 & _). lia. }
  fold (zeroPadded raw).
  assert (length (zeroPadded raw) = 9) as Hlen9.
  { unfold zeroPadded, zeros. rewrite length_app, length_replicate. lia. }
  assert (decimal (zeroPadded raw)) as Hdec9.
  { apply Forall_app. split; [apply decimal_zeros | done]. }
  destruct (Hshort raw Hlen Hdec) as [H1 H2].
  destruct (Hshort (zeroPadded raw) ltac:(lia) Hdec9) as [_ H3].
  repeat split; try done.
  rewrite H3. f_equal. unfold zeroPadded at 1. rewrite Hlen9. reflexivity.
Qed.

Lemma shortParser_zero_pads_idempotent_witness :
  parseCardData (str "111111") = Some (str "000111111")
  ∧ parseCardData (str "000111111") = Some (str "000111111").
Proof.
  assert (1 ≤ length (str "111111") ≤ 9) as Hlen by (vm_compute; lia).
  assert (decimal (str "111111")) as Hdec by (apply forallb_isDigit; reflexivity).
  destruct (shortParser_zero_pads_idempotent (str "111111") Hlen Hdec)
    as (_ & _ & H1 & H2).
  split; [exact H1 | exact H2].
Defined.

(** C9.  The normalizer is defined on every string and returns an
    identifier exactly when the line has one of the three formats, and
    then the identifier of that format; on every other line it returns
    [null]. *)
Theorem parseCardData_total_no_partial (raw : jsstring) :
  (∀ r, parseCardData raw = Some r ↔ Canonical raw r)
  ∧ (parseCardData raw = None ↔ ∀ r, ¬ Canonical raw r)
  ∧ (parseCardData raw = None ∨ ∃ r, parseCardData raw = Some r).
Proof.
  assert (∀ r, parseCardData raw = Some r ↔ Canonical raw r) as Hspec.
  { intros r. rewrite parseCardData_unfold. unfold nextFormats, Canonical.
    rewrite <- fullParser_spec, <- mobileParser_spec, <- shortParser_spec.
    destruct (fullParser raw) as [r1 |] eqn:Hfull.
    { split; [intros [= <-]; by left |].
      intros [H | [H | H]]; [done | |].
      - apply mobileParser_spec in H as (_ & Hdec & _).
        unfold fullParser in Hfull. by rewrite decimal_no_separator in Hfull.
      - apply shortParser_spec in H as (_ & Hdec & _).
        unfold fullParser in Hfull. by rewrite decimal_no_separator in Hfull. }
    destruct (mobileParser raw) as [r2 |] eqn:Hmob.
    { split; [intros [= <-]; right; by left |].
      intros [H | [H | H]]; [done | done |].
      apply mobileParser_spec in Hmob as (Hl16 & _).
      apply shortParser_spec in H as (Hl9 & _). lia. }
    split; [intros H; right; by right |].
    by intros [H | [H | H]]. }
  split; [exact Hspec |]. split.
  - split.
    + intros Hnone r Hr. apply Hspec in Hr. congruence.
    + intros Hno. destruct (parseCardData raw) as [r |] eqn:E; [| done].
      exfalso. apply (Hno r). by apply Hspec.
  - destruct (parseCardData raw) as [r |]; [right; by exists r | by left].
Qed.

Lemma parseCardData_total_no_partial_witness :
  parseCardData (str "12ab") = None
  ∧ ∀ r, ¬ Canonical (str "12ab") r.
Proof.
  assert (parseCardData (str "12ab") = None) as Hnone by reflexivity.
  split; [exact Hnone |].
  exact (proj1 (proj1 (proj2 (parseCardData_total_no_partial (str "12ab")))) Hnone).
Defined.

(** The examples of the parsers' header comment. *)
Example mobile_example :
  parseCardData (str "6017700010001111") = Some (str "6017700010001111").
Proof. vm_compute. reflexivity. Qed.

Example short_example :
  parseCardData (str "111111") = Some (str "000111111").
Proof. vm_compute. reflexivity. Qed.

Example split_example :
  split "=" (str "a==b=") = [str "a"; []; str "b"; []].
Proof. vm_compute. reflexivity. Qed.

Example slice_example : slice (str "0123456789abc") 9 (-1) = str "9ab".
Proof. vm_compute. reflexivity. Qed.

Example trim_example : trim (str "  ab c  ") = str "ab c".
Proof. vm_compute. reflexivity. Qed.

End Normalizer.

(** ** Device discovery *)

Module DiscoveryFacts.
Import JS Discovery Samples.

Lemma truthy_want (v : option jsstring) : truthy (want v) = truthy v.
Proof. unfold want. destruct v as [[| c s] |]; reflexivity. Qed.

Lemma want_lower (v : option jsstring) :
  truthy v = true → want v = Some (toLowerCase (default [] v)).
Proof. unfold want. intros H. rewrite H. destruct v; [done | discriminate H]. Qed.

Lemma wanted_test (wanted actual : option jsstring) :
  truthy (want wanted)
    && negb (bool_decide (Some (toLowerCase (orEmpty actual)) = want wanted)) = false
  ↔ sameId wanted actual.
Proof.
  unfold sameId. rewrite truthy_want. destruct (truthy wanted) eqn:Ht.
  - rewrite want_lower by done. cbn [andb]. rewrite negb_false_iff, bool_decide_eq_true.
    split; [intros [= ->] _; done | intros H; by rewrite H].
  - cbn [andb]. split; [intros _ H; discriminate H | done].
Qed.

Lemma portMatches_qualifies (config : Config) (p : Port) :
  portMatches (want (vendorId config)) (want (productId config)) p = true
  ↔ qualifies config p.
Proof.
  unfold portMatches, qualifies.
  rewrite <- !wanted_test.
  destruct (truthy (want (vendorId config)) && _);
    destruct (truthy (want (productId config)) && _); simpl; intuition congruence.
Qed.

Lemma portMatches_not (config : Config) (p : Port) :
  portMatches (want (vendorId config)) (want (productId config)) p = false
  ↔ ¬ qualifies config p.
Proof.
  rewrite <- portMatches_qualifies.
  by destruct (portMatches _ _ p).
Qed.

Lemma filter_none (config : Config) (ports : list Port) :
  Forall (λ p, ¬ qualifies config p) ports →
  List.filter (portMatches (want (vendorId config)) (want (productId config))) ports = [].
Proof.
  intros H. induction H as [| p ports Hp _ IH]; simpl; [done |].
  apply portMatches_not in Hp. by rewrite Hp.
Qed.

Lemma filter_first (config : Config) (before : list Port) (p : Port) (after : list Port) :
  Forall (λ q, ¬ qualifies config q) before → qualifies config p →
  List.filter (portMatches (want (vendorId config)) (want (productId config)))
    (before ++ p :: after)
  = p :: List.filter (portMatches (want (vendorId config)) (want (productId config))) after.
Proof.
  intros Hb Hp. rewrite List.filter_app, (filter_none config before Hb). simpl.
  apply portMatches_qualifies in Hp. by rewrite Hp.
Qed.

Lemma filter_nil_none (config : Config) (ports : list Port) :
  List.filter (portMatches (want (vendorId config)) (want (productId config))) ports = []
  ↔ Forall (λ p, ¬ qualifies config p) ports.
Proof.
  split; [| apply filter_none].
  induction ports as [| p ports IH]; simpl; [constructor |].
  destruct (portMatches _ _ p) eqn:E; [done |].
  intros H. constructor; [by apply portMatches_not | by apply IH].
Qed.

Lemma single_onlyDevice (ports : list Port) :
  (if length ports =? 1 then port_path <$> ports !! 0 else None) = onlyDevice ports.
Proof. by destruct ports as [| p [| q ports]]. Qed.

Lemma filter_test (config : Config) :
  truthy (want (vendorId config)) || truthy (want (productId config)) = true
  ↔ filterConfigured config.
Proof. unfold filterConfigured. rewrite !truthy_want, orb_true_iff. tauto. Qed.

(** [findSerialPath] without a pinned path, by cases on the filter. *)
Lemma findSerialPath_filter (config : Config) (ports : list Port) :
  truthy (serialPath config) = false → filterConfigured config →
  findSerialPath config ports =
    match List.filter (portMatches (want (vendorId config)) (want (productId config))) ports with
    | [] => (onlyDevice ports, [])
    | [p] => (Some (port_path p), [])
    | p :: _ :: _ => (Some (port_path p), [ambiguity])
    end.
Proof.
  intros Hpin Hfilter. unfold findSerialPath. rewrite Hpin.
  apply filter_test in Hfilter. rewrite Hfilter, single_onlyDevice.
  by destruct (List.filter _ ports) as [| p [| q l]].
Qed.

Lemma findSerialPath_no_filter (config : Config) (ports : list Port) :
  truthy (serialPath config) = false → ¬ filterConfigured config →
  findSerialPath config ports = (onlyDevice ports, []).
Proof.
  intros Hpin Hfilter. unfold findSerialPath. rewrite Hpin.
  rewrite <- filter_test in Hfilter. apply not_true_is_false in Hfilter.
  by rewrite Hfilter, single_onlyDevice.
Qed.

(** C4, as the claim has it, fails: with a vendor filter and one
    enumerated device of another vendor, no device matches the filter and
    discovery still returns that device's path. *)
Lemma findSerialPath_filter_no_match_returns_path :
  truthy (serialPath vendorOnly) = false
  ∧ filterConfigured vendorOnly
  ∧ Forall (λ p, ¬ qualifies vendorOnly p) [otherVendor]
  ∧ fst (findSerialPath vendorOnly [otherVendor]) = Some (str "/dev/ttyUSB0")
  ∧ fst (findSerialPath vendorOnly [otherVendor]) ≠ None.
Proof.
  split; [reflexivity |]. split; [by left |]. split; [| by vm_compute].
  constructor; [| constructor]. apply portMatches_not. reflexivity.
Qed.

(** C4, amended.  With a vendor/product filter and no pinned path,
    discovery returns the path of the first enumerated device that matches
    the filter up to letter case, and logs the ambiguity exactly when a
    later device matches too; when no enumerated device matches, it returns
    the path of the only enumerated device if there is exactly one, and no
    path otherwise. *)
Theorem findSerialPath_filtered (config : Config) (ports : list Port) :
  truthy (serialPath config) = false → filterConfigured config →
  (∀ before p after,
     ports = before ++ p :: after →
     Forall (λ q, ¬ qualifies config q) before → qualifies config p →
     fst (findSerialPath config ports) = Some (port_path p)
     ∧ (Exists (qualifies config) after →
          snd (findSerialPath config ports) = [ambiguity])
     ∧ (Forall (λ q, ¬ qualifies config q) after →
          snd (findSerialPath config ports) = []))
  ∧ (Forall (λ q, ¬ qualifies config q) ports →
       findSerialPath config ports = (onlyDevice ports, [])).
Proof.
  intros Hpin Hfilter. rewrite (findSerialPath_filter config ports Hpin Hfilter).
  split.
  - intros before p after -> Hb Hp. rewrite (filter_first config before p after Hb Hp).
    destruct (List.filter _ after) as [| q l] eqn:E.
    + apply filter_nil_none in E. repeat split; try done.
      intros Hex. apply Exists_exists in Hex as (q & Hq & Hqual).
      rewrite Forall_forall in E. by destruct (E q Hq).
    + repeat split; try done.
      intros Hall. apply filter_nil_none in Hall. congruence.
  - intros Hall. by rewrite (filter_none config ports Hall).
Qed.

Lemma findSerialPath_filtered_witness :
  fst (findSerialPath vendorOnly [otherVendor; reader "/dev/ttyACM0"; reader "/dev/ttyACM1"])
    = Some (str "/dev/ttyACM0")
  ∧ snd (findSerialPath vendorOnly [otherVendor; reader "/dev/ttyACM0"; reader "/dev/ttyACM1"])
    = [ambiguity]
  ∧ findSerialPath vendorOnly [otherVendor; otherVendor] = (None, []).
Proof.
  assert (truthy (serialPath vendorOnly) = false) as Hpin by reflexivity.
  assert (filterConfigured vendorOnly) as Hfilter by (by left).
  assert (¬ qualifies vendorOnly otherVendor) as Hother
    by (apply portMatches_not; reflexivity).
  assert (∀ path, qualifies vendorOnly (reader path)) as Hreader
    by (intros path; apply portMatches_qualifies; reflexivity).
  split; [| split].
  - refine (proj1 (proj1 (findSerialPath_filtered vendorOnly _ Hpin Hfilter)
                     [otherVendor] (reader "/dev/ttyACM0") [reader "/dev/ttyACM1"] _ _ _)).
    + reflexivity.
    + by repeat constructor.
    + apply Hreader.
  - refine (proj1 (proj2 (proj1 (findSerialPath_filtered vendorOnly _ Hpin Hfilter)
                     [otherVendor] (reader "/dev/ttyACM0") [reader "/dev/ttyACM1"] _ _ _)) _).
    + reflexivity.
    + by repeat constructor.
    + apply Hreader.
    + constructor. apply Hreader.
  - refine (proj2 (findSerialPath_filtered vendorOnly [otherVendor; otherVendor] Hpin Hfilter) _).
    by repeat constructor.
Defined.

(** C10.  With neither a pinned path nor a vendor/product filter,
    discovery returns a path exactly when one device is enumerated, that
    device's path; with none, or with two or more, it returns no path; it
    logs nothing. *)
Theorem findSerialPath_unfiltered (config : Config) (ports : list Port) :
  truthy (serialPath config) = false →
  truthy (vendorId config) = false → truthy (productId config) = false →
  findSerialPath config ports = (onlyDevice ports, [])
  ∧ (∀ path, fst (findSerialPath config ports) = Some path
             ↔ ∃ p, ports = [p] ∧ path = port_path p)
  ∧ (length ports ≠ 1 → fst (findSerialPath config ports) = None).
Proof.
  intros Hpin Hvid Hpid.
  assert (findSerialPath config ports = (onlyDevice ports, [])) as ->.
  { apply findSerialPath_no_filter; [done |]. unfold filterConfigured.
    rewrite Hvid, Hpid. by intros [? | ?]. }
  split; [done |]. cbn [fst]. split.
  - intros path. destruct ports as [| p [| q ports]]; simpl.
    + split; [done | by intros (p & ? & _)].
    + split; [intros [= <-]; by exists p | intros (p' & [= <-] & ->); done].
    + split; [done | by intros (p' & ? & _)].
  - intros Hlen. by destruct ports as [| p [| q ports]].
Qed.

Lemma findSerialPath_unfiltered_witness :
  truthy (serialPath installed) = false
  ∧ findSerialPath installed [otherVendor] = (Some (str "/dev/ttyUSB0"), [])
  ∧ fst (findSerialPath installed [otherVendor; reader "/dev/ttyACM0"]) = None
  ∧ fst (findSerialPath installed []) = None.
Proof.
  split; [reflexivity |]. split; [| split].
  - exact (proj1 (findSerialPath_unfiltered installed [otherVendor]
                    eq_refl eq_refl eq_refl)).
  - refine (proj2 (proj2 (findSerialPath_unfiltered installed
                    [otherVendor; reader "/dev/ttyACM0"] eq_refl eq_refl eq_refl)) _).
    simpl. lia.
  - refine (proj2 (proj2 (findSerialPath_unfiltered installed []
                    eq_refl eq_refl eq_refl)) _).
    simpl. lia.
Defined.

End DiscoveryFacts.

(** ** The reconnect timer *)

Module ConnectionFacts.
Import JS Discovery Connection Samples.

Lemma timers_clearTimeout (st : State) :
  timerOwned st → timers (clearTimeout (reconnectTimer st) st) = ∅.
Proof.
  intros Hown. unfold clearTimeout. apply map_eq. intros k. rewrite lookup_empty.
  destruct (reconnectTimer st) as [id |] eqn:Ht; simpl.
  - destruct (decide (id = k)) as [-> | Hne].
    + apply lookup_delete_eq.
    + rewrite lookup_delete_ne by done.
      destruct (timers st !! k) eqn:E; [| done].
      assert (Some id = Some k) as [= ->]; [| done].
      rewrite <- Ht. apply Hown. by rewrite E.
  - destruct (timers st !! k) eqn:E; [| done].
    assert (None = Some k) as Habs; [| done].
    rewrite <- Ht. apply Hown. by rewrite E.
Qed.

Lemma clearTimeout_fields (t : option nat) (st : State) :
  port (clearTimeout t st) = port st
  ∧ reconnectTimer (clearTimeout t st) = reconnectTimer st
  ∧ nextTimer (clearTimeout t st) = nextTimer st
  ∧ exited (clearTimeout t st) = exited st.
Proof. by destruct t. Qed.

(** Arming the timer on an empty table leaves exactly that timer. *)
Lemma armReconnect_single (delay : Q) (st : State) :
  timers st = ∅ →
  timers (armReconnect delay st) = {[ nextTimer st := delay ]}
  ∧ reconnectTimer (armReconnect delay st) = Some (nextTimer st).
Proof. intros H. simpl. by rewrite H. Qed.

Lemma timerOwned_single (st : State) (id : nat) (delay : Q) :
  timers st = {[ id := delay ]} → reconnectTimer st = Some id → timerOwned st.
Proof.
  intros Ht Hr k [d Hk]. rewrite Ht in Hk.
  apply lookup_singleton_Some in Hk as [-> _]. done.
Qed.

Lemma timerOwned_empty (st : State) : timers st = ∅ → timerOwned st.
Proof. intros Ht k [d Hk]. by rewrite Ht, lookup_empty in Hk. Qed.

Lemma timerOwned_pending (st : State) : timerOwned st → pending st ≤ 1.
Proof.
  intros Hown. unfold pending.
  destruct (reconnectTimer st) as [id |] eqn:Ht.
  - assert (timers st ⊆ {[ id := default 0%Q (timers st !! id) ]}) as Hsub.
    { apply map_subseteq_spec. intros k d Hk.
      assert (Some id = Some k) as [= ->].
      { rewrite <- Ht. apply Hown. by rewrite Hk. }
      rewrite Hk. simpl. apply lookup_singleton_eq. }
    apply map_subseteq_size in Hsub. by rewrite map_size_singleton in Hsub.
  - assert (timers st = ∅) as ->; [| by rewrite map_size_empty; lia].
    apply map_eq. intros k. rewrite lookup_empty.
    destruct (timers st !! k) eqn:E; [| done].
    assert (None = Some k) as Habs; [| done].
    rewrite <- Ht. apply Hown. by rewrite E.
Qed.

(** What [scheduleReconnect] leaves behind. *)
Lemma scheduleReconnect_single (config : Config) (st : State) :
  timerOwned st →
  port (scheduleReconnect config st) = None
  ∧ reconnectTimer (scheduleReconnect config st) = Some (nextTimer st)
  ∧ timers (scheduleReconnect config st) = {[ nextTimer st := reconnectInterval config ]}
  ∧ exited (scheduleReconnect config st) = exited st.
Proof.
  intros Hown. unfold scheduleReconnect.
  assert (timerOwned (setPort None st)) as Hown' by exact Hown.
  pose proof (timers_clearTimeout (setPort None st) Hown') as Hclear.
  destruct (clearTimeout_fields (reconnectTimer (setPort None st)) (setPort None st))
    as (Hp & Hr & Hn & He).
  destruct (armReconnect_single (reconnectInterval config) _ Hclear) as [Ht Hrt].
  rewrite Hn in Ht, Hrt. repeat split; try done.
Qed.

Lemma scheduleReconnect_owned (config : Config) (st : State) :
  timerOwned st → timerOwned (scheduleReconnect config st).
Proof.
  intros Hown. destruct (scheduleReconnect_single config st Hown) as (_ & Hr & Ht & _).
  by eapply timerOwned_single.
Qed.

Lemma connectScanner_owned (v : Variant) (config : Config) (ports : list Port)
    (ok : bool) (st : State) :
  timerOwned st → timerOwned (connectScanner v config ports ok st).
Proof.
  intros Hown. unfold connectScanner.
  pose proof (timers_clearTimeout st Hown) as Hclear.
  destruct (armReconnect_single (reconnectInterval config) _ Hclear) as [Ht Hrt].
  assert (timerOwned (armReconnect (reconnectInterval config)
                        (clearTimeout (reconnectTimer st) st))) as Harm
    by by eapply timerOwned_single.
  assert (∀ p, timerOwned (setPort p (clearTimeout (reconnectTimer st) st))) as Hset
    by (intros p; by apply timerOwned_empty).
  destruct (negb _); [done |]. destruct v; [done |]. by destruct ok.
Qed.

Lemma delete_owned (st : State) (id : nat) :
  timerOwned st →
  timerOwned {| port := port st; reconnectTimer := reconnectTimer st;
                timers := delete id (timers st); nextTimer := nextTimer st;
                exited := exited st |}.
Proof.
  intros Hown k [d Hk]. simpl in *. apply Hown.
  apply lookup_delete_Some in Hk as [_ Hk]. by rewrite Hk.
Qed.

Lemma shutdown_owned (st : State) : timerOwned st → timerOwned (shutdown st).
Proof.
  intros Hown. apply timerOwned_empty. unfold shutdown. simpl.
  by apply timers_clearTimeout.
Qed.

Lemma init_owned : timerOwned init.
Proof. by apply timerOwned_empty. Qed.

Lemma step_owned (v : Variant) (config : Config) (st : State) (ev : Event) (st' : State) :
  step v config st ev st' → timerOwned st → timerOwned st'.
Proof.
  intros Hstep Hown. destruct Hstep.
  - by apply connectScanner_owned, delete_owned.
  - by apply scheduleReconnect_owned.
  - by apply scheduleReconnect_owned.
  - by apply scheduleReconnect_owned.
  - by apply shutdown_owned.
Qed.

Lemma reachable_owned (v : Variant) (config : Config) (st : State) :
  reachable v config st → timerOwned st.
Proof.
  induction 1 as [ports ok | st ev st' _ IH Hstep].
  - apply connectScanner_owned, init_owned.
  - by eapply step_owned.
Qed.

Lemma failures_owned (config : Config) (n : nat) (st : State) :
  timerOwned st → timerOwned (failures config n st).
Proof.
  intros Hown. induction n as [| n IH]; [done |].
  by apply scheduleReconnect_owned.
Qed.

Lemma failures_reachable (v : Variant) (config : Config) (n : nat) (st : State) :
  reachable v config st → exited st = false →
  reachable v config (failures config n st) ∧ exited (failures config n st) = false.
Proof.
  intros Hreach Hrun. induction n as [| n [IHr IHe]]; [done |].
  change (failures config (S n) st)
    with (scheduleReconnect config (failures config n st)).
  split.
  - eapply reachable_step; [exact IHr |]. by apply step_error.
  - pose proof (reachable_owned _ _ _ IHr) as Hown.
    destruct (scheduleReconnect_single config _ Hown) as (_ & _ & _ & He). congruence.
Qed.

(** C7.  In every state the service can reach at most one reconnect timer
    is pending.  A read error or a close of the stream (with the device
    open or not) leaves the device dropped and exactly one timer pending,
    the one [reconnectTimer] refers to, set for [reconnectInterval]; after
    any number of failures in a row there is still exactly one. *)
Theorem reconnect_single_timer (v : Variant) (config : Config) (st : State) :
  reachable v config st →
  pending st ≤ 1
  ∧ (∀ ev st', isFailure ev → step v config st ev st' →
       port st' = None
       ∧ (∃ id, reconnectTimer st' = Some id
                ∧ timers st' = {[ id := reconnectInterval config ]})
       ∧ pending st' = 1)
  ∧ (∀ n, exited st = false →
       reachable v config (failures config (S n) st)
       ∧ pending (failures config (S n) st) = 1).
Proof.
  intros Hreach. pose proof (reachable_owned v config st Hreach) as Hown.
  split; [by apply timerOwned_pending |]. split.
  - intros ev st' Hfail Hstep.
    assert (st' = scheduleReconnect config st) as ->.
    { destruct Hfail as [-> | ->]; by inversion Hstep. }
    destruct (scheduleReconnect_single config st Hown) as (Hp & Hr & Ht & _).
    split; [done |]. split; [by exists (nextTimer st) |].
    unfold pending. by rewrite Ht, map_size_singleton.
  - intros n Hrun.
    destruct (failures_reachable v config (S n) st Hreach Hrun) as [Hr _].
    split; [done |].
    change (failures config (S n) st)
      with (scheduleReconnect config (failures config n st)).
    pose proof (failures_owned config n st Hown) as Hown'.
    destruct (scheduleReconnect_single config _ Hown') as (_ & _ & Ht & _).
    unfold pending. by rewrite Ht, map_size_singleton.
Qed.

Lemma reconnect_single_timer_witness :
  reachable SerialPortPkg vendorOnly
    (connectScanner SerialPortPkg vendorOnly [reader "/dev/ttyACM0"] true init)
  ∧ pending (failures vendorOnly 3
      (connectScanner SerialPortPkg vendorOnly [reader "/dev/ttyACM0"] true init)) = 1.
Proof.
  assert (reachable SerialPortPkg vendorOnly
            (connectScanner SerialPortPkg vendorOnly [reader "/dev/ttyACM0"] true init))
    as Hreach by apply reachable_start.
  split; [exact Hreach |].
  refine (proj2 (proj2 (proj2 (reconnect_single_timer _ _ _ Hreach)) 2 _)).
  reflexivity.
Defined.

End ConnectionFacts.

(** ** Delivery retries *)

Module DeliveryFacts.
Import Delivery Samples.
Local Open Scope Z_scope.

(** The test of [retry] on a whole attempt number is a test against the
    count rounded up. *)
Lemma retry_test (attempt : Z) (q : Q) :
  (inject_Z attempt < q)%Q ↔ attempt < Qceiling q.
Proof.
  split.
  - intros H. rewrite Zlt_Qlt. eapply Qlt_le_trans; [exact H | apply Qle_ceiling].
  - intros H. eapply Qle_lt_trans; [| apply Qceiling_lt]. rewrite <- Zle_Qle. lia.
Qed.

(** The body of [sendToServer], as an equation. *)
Lemma sendToServer_unfold (config : Config) (net : Z → Reply) (scan : Scan) (attempt : Z) :
  sendToServer config net scan attempt =
    if isThrown (net attempt) then [Threw]
    else
      POST scan attempt ::
      (if isUnanswered (net attempt) then []
       else if delivered (net attempt) then [Logged (Log INFO "POST OK")]
       else
         Logged (failureLine (net attempt)) ::
         (if decide (attempt < Qceiling (sendRetries config)) then
            retrying :: SetTimeout (sendRetryDelay config) ::
            sendToServer config net scan (attempt + 1)
          else [gaveUp])).
Proof.
  rewrite sendToServer_equation_1 at 1.
  destruct (isThrown (net attempt)); [done |].
  destruct (isUnanswered (net attempt)); [done |].
  destruct (delivered (net attempt)); [done |].
  destruct (Qlt_le_dec (inject_Z attempt) (sendRetries config)) as [Hlt | Hle];
    case_decide as Hc; try done.
  - apply retry_test in Hlt. done.
  - apply retry_test in Hc. by apply Qlt_not_le in Hc.
Qed.

Lemma failed_cases (r : Reply) :
  failed r = true → isThrown r = false ∧ isUnanswered r = false ∧ delivered r = false.
Proof. destruct r as [c | | |]; simpl; try done. intros H. by apply negb_true_iff in H. Qed.

Lemma delivered_cases (r : Reply) :
  delivered r = true → isThrown r = false ∧ isUnanswered r = false.
Proof. by destruct r. Qed.

Lemma sendToServer_failing (config : Config) (net : Z → Reply) (scan : Scan)
    (more : nat) (attempt : Z) :
  alwaysFails net →
  more = Z.to_nat (Qceiling (sendRetries config) - attempt) →
  sendToServer config net scan attempt = failingRounds config net scan attempt more.
Proof.
  intros Hfail. revert attempt. induction more as [| more IH]; intros attempt Hmore;
    rewrite sendToServer_unfold;
    destruct (failed_cases _ (Hfail attempt)) as (-> & -> & ->).
  - case_decide; [lia | done].
  - case_decide; [| lia].
    simpl. rewrite (IH (attempt + 1)) by lia. done.
Qed.

Lemma attempts_failingRounds (config : Config) (net : Z → Reply) (scan : Scan)
    (attempt : Z) (more : nat) :
  attempts (failingRounds config net scan attempt more) = S more.
Proof.
  revert attempt. induction more as [| more IH]; intros attempt; [done |].
  unfold attempts in *. simpl. by rewrite IH.
Qed.

Lemma last_failingRounds (config : Config) (net : Z → Reply) (scan : Scan)
    (attempt : Z) (more : nat) :
  last (failingRounds config net scan attempt more) = Some gaveUp.
Proof.
  revert attempt. induction more as [| more IH]; intros attempt; [done |].
  cbn [failingRounds]. rewrite !last_cons, IH. done.
Qed.

Lemma attempts_cons_post (scan : Scan) (attempt : Z) (tr : list Effect) :
  attempts (POST scan attempt :: tr) = S (attempts tr).
Proof. reflexivity. Qed.

Lemma attempts_cons_other (e : Effect) (tr : list Effect) :
  isPost e = false → attempts (e :: tr) = attempts tr.
Proof. intros H. unfold attempts. simpl. by rewrite H. Qed.

Lemma attempts_sendToServer (config : Config) (net : Z → Reply) (scan : Scan)
    (more : nat) (attempt : Z) :
  more = Z.to_nat (Qceiling (sendRetries config) - attempt) →
  (attempts (sendToServer config net scan attempt) ≤ S more)%nat.
Proof.
  revert attempt. induction more as [| more IH]; intros attempt Hmore;
    rewrite sendToServer_unfold;
    (destruct (isThrown (net attempt)); [cbn; lia |]);
    rewrite attempts_cons_post;
    (destruct (isUnanswered (net attempt)); [cbn; lia |]);
    (destruct (delivered (net attempt)); [cbn; lia |]);
    rewrite attempts_cons_other by done.
  - case_decide; [lia | cbn; lia].
  - case_decide; [| cbn; lia].
    rewrite !attempts_cons_other by done.
    specialize (IH (attempt + 1) ltac:(lia)). lia.
Qed.

(** C6, as the claim has it, fails in its general part.  The first request
    is made before the retry count is looked at, so a configured count
    below one still gives one request; and [attempt < config.sendRetries]
    lets a count that is not whole through once more, so a count of 2.5
    gives three requests. *)
Lemma deliver_exceeds_negative_sendRetries :
  loadConfig negativeRetriesFile = Some negativeRetries
  ∧ loadConfig fractionalRetriesFile = Some fractionalRetries
  ∧ alwaysFails hostDown
  ∧ attempts (deliver negativeRetries hostDown sampleScan) = 1%nat
  ∧ ¬ (inject_Z (Z.of_nat (attempts (deliver negativeRetries hostDown sampleScan)))
         <= sendRetries negativeRetries)%Q
  ∧ attempts (deliver fractionalRetries hostDown sampleScan) = 3%nat
  ∧ ¬ (inject_Z (Z.of_nat (attempts (deliver fractionalRetries hostDown sampleScan)))
         <= sendRetries fractionalRetries)%Q.
Proof.
  split; [reflexivity |]. split; [reflexivity |]. split; [done |].
  assert (attempts (deliver negativeRetries hostDown sampleScan) = 1%nat) as ->.
  { unfold deliver. rewrite (sendToServer_failing _ _ _ 0%nat) by done. reflexivity. }
  assert (attempts (deliver fractionalRetries hostDown sampleScan) = 3%nat) as ->.
  { unfold deliver. rewrite (sendToServer_failing _ _ _ 2%nat) by done. reflexivity. }
  split; [done |]. split; [by vm_compute |]. split; [done |]. by vm_compute.
Qed.

(** C6, amended.  Take an event whose requests are all made and all fail
    (a status that is not 2xx, or a network error, each time).  With
    [sendRetries] set to 3 it is posted exactly three times, the second and
    third request each after a timer of [sendRetryDelay], then the give-up
    is logged and nothing follows; with any whole count of at least one it
    is posted exactly that many times, in that same pattern.  No event,
    failing or not, is posted more often than the configured count rounded
    up to a whole number, and one at least: so never more often than a
    whole count of at least one.  An event is posted at least once unless
    the first call throws before its request is made. *)
Theorem deliver_bounded_retries (config : Config) (net : Z → Reply) (scan : Scan) :
  alwaysFails net →
  ((sendRetries config == 3)%Q →
     deliver config net scan =
       [POST scan 1; Logged (failureLine (net 1)); retrying;
        SetTimeout (sendRetryDelay config);
        POST scan 2; Logged (failureLine (net 2)); retrying;
        SetTimeout (sendRetryDelay config);
        POST scan 3; Logged (failureLine (net 3)); gaveUp]
     ∧ attempts (deliver config net scan) = 3%nat)
  ∧ (∀ n : Z, 1 ≤ n → (sendRetries config == inject_Z n)%Q →
     deliver config net scan = failingRounds config net scan 1 (Z.to_nat (n - 1))
     ∧ Z.of_nat (attempts (deliver config net scan)) = n
     ∧ last (deliver config net scan) = Some gaveUp)
  ∧ (∀ any : Z → Reply,
       Z.of_nat (attempts (deliver config any scan)) ≤ allowed config
       ∧ (∀ n : Z, 1 ≤ n → (sendRetries config == inject_Z n)%Q →
          Z.of_nat (attempts (deliver config any scan)) ≤ n)
       ∧ (isThrown (any 1) = false → (1 ≤ attempts (deliver config any scan))%nat)
       ∧ (isThrown (any 1) = true → deliver config any scan = [Threw])).
Proof.
  intros Hfail.
  assert (deliver config net scan
            = failingRounds config net scan 1
                (Z.to_nat (Qceiling (sendRetries config) - 1)))
    as Hrounds by (unfold deliver; by apply sendToServer_failing).
  assert (∀ n : Z, (sendRetries config == inject_Z n)%Q →
                   Qceiling (sendRetries config) = n) as Hwhole.
  { intros n Hn. rewrite (Qceiling_comp _ _ Hn). apply Qceiling_Z. }
  split; [| split].
  - intros H3. rewrite Hrounds, (Hwhole 3 H3). done.
  - intros n Hpos Hn. rewrite Hrounds, (Hwhole n Hn). split; [done |]. split.
    + rewrite attempts_failingRounds. lia.
    + apply last_failingRounds.
  - intros any.
    pose proof (attempts_sendToServer config any scan
                  (Z.to_nat (Qceiling (sendRetries config) - 1)) 1 eq_refl) as H.
    unfold deliver, allowed. split; [lia |]. split; [| split].
    + intros n Hpos Hn. rewrite (Hwhole n Hn) in H. lia.
    + intros Hbuilt. rewrite sendToServer_unfold, Hbuilt, attempts_cons_post. lia.
    + intros Hthrown. by rewrite sendToServer_unfold, Hthrown.
Qed.

Lemma deliver_bounded_retries_witness :
  alwaysFails serverError
  ∧ loadConfig installedFile = Some installed
  ∧ attempts (deliver installed serverError sampleScan) = 3%nat
  ∧ last (deliver installed serverError sampleScan) = Some gaveUp
  ∧ Z.of_nat (attempts (deliver installed hostDown sampleScan)) ≤ 3
  ∧ (1 ≤ attempts (deliver installed hostDown sampleScan))%nat
  ∧ deliver installed badEndpoint sampleScan = [Threw].
Proof.
  assert (alwaysFails serverError) as Hfail by done.
  assert (sendRetries installed == 3)%Q as H3 by reflexivity.
  pose proof (deliver_bounded_retries installed serverError sampleScan Hfail)
    as (Hthree & Hwhole & Hany).
  split; [exact Hfail |]. split; [reflexivity |]. split; [exact (proj2 (Hthree H3)) |].
  split; [exact (proj2 (proj2 (Hwhole 3%Z ltac:(lia) H3))) |].
  split; [exact (proj1 (proj2 (Hany hostDown)) 3%Z ltac:(lia) H3) |].
  split; [exact (proj1 (proj2 (proj2 (Hany hostDown))) eq_refl) |].
  exact (proj2 (proj2 (proj2 (Hany badEndpoint))) eq_refl).
Defined.

End DeliveryFacts.

(** ** The version marker *)

Module UpdaterFacts.
Import JS Updater Samples.

Lemma afterReplacement_app_l (tr1 tr2 : list Effect) (i : nat) :
  afterReplacement tr1 i → afterReplacement (tr1 ++ tr2) i.
Proof.
  intros (j & -> & Hj). exists j. split; [done |].
  by apply lookup_app_l_Some.
Qed.

Lemma afterReplacement_app_r (tr1 tr2 : list Effect) (i : nat) :
  afterReplacement tr2 i → afterReplacement (tr1 ++ tr2) (length tr1 + i).
Proof.
  intros (j & -> & Hj). exists (length tr1 + j). split; [lia |].
  by rewrite lookup_app_r, Nat.add_comm, Nat.add_sub by lia.
Qed.

Lemma afterWrites_app (tr1 tr2 : list Effect) (file : option jsstring) :
  afterWrites (tr1 ++ tr2) file = afterWrites tr2 (afterWrites tr1 file).
Proof. apply fold_left_app. Qed.

(** One check: the only write follows a successful replacement; a failed
    replacement, an unreachable remote or an unchanged revision leave the
    state as it was. *)
Lemma checkForUpdates_cases (t : Tick) (st : State) :
  (fst (checkForUpdates t st) = st
   ∧ Forall (λ e, ∀ sha, e ≠ WriteVersion sha) (snd (checkForUpdates t st)))
  ∨ (∃ sha, remoteSha t = Some sha ∧ sha ≠ [] ∧ Some sha ≠ getLocalVersion st
            ∧ applyOk t = true ∧ writeOk t = true
            ∧ checkForUpdates t st =
                (exit (writeVersion sha st),
                 [FetchRemote; Logged (Log INFO "Update available");
                  ApplyUpdate true; WriteVersion sha;
                  Logged (Log INFO "Update applied, restarting..."); Exit 0])).
Proof.
  unfold checkForUpdates. destruct (remoteSha t) as [sha |] eqn:Hsha.
  - destruct (isEmpty sha) eqn:He; [left; split; [done | by repeat constructor] |].
    case_bool_decide as Hsame; [left; split; [done | by repeat constructor] |].
    destruct (applyOk t) eqn:Hok; [destruct (writeOk t) eqn:Hw |].
    + right. exists sha. repeat split; try done. by apply JSFacts.isEmpty_false.
    + left. split; [done | by repeat constructor].
    + left. split; [done | by repeat constructor].
  - left. split; [done | by repeat constructor].
Qed.

Lemma checkForUpdates_write (t : Tick) (st : State) (i : nat) (sha : jsstring) :
  snd (checkForUpdates t st) !! i = Some (WriteVersion sha) →
  afterReplacement (snd (checkForUpdates t st)) i.
Proof.
  destruct (checkForUpdates_cases t st) as [[_ Hno] | (s & _ & _ & _ & _ & _ & ->)].
  - intros Hi. rewrite Forall_forall in Hno.
    apply list_elem_of_lookup_2 in Hi. by destruct (Hno _ Hi sha).
  - simpl. intros Hi. exists 2.
    destruct i as [| [| [| [| [| [| i]]]]]]; try discriminate Hi; done.
Qed.

Lemma checkForUpdates_state (t : Tick) (st : State) :
  versionFile (fst (checkForUpdates t st))
    = afterWrites (snd (checkForUpdates t st)) (versionFile st).
Proof.
  unfold checkForUpdates. destruct (remoteSha t) as [sha |]; [| done].
  destruct (isEmpty sha); [done |]. case_bool_decide; [done |].
  destruct (applyOk t); [| done]. by destruct (writeOk t).
Qed.

Lemma ticks_write (ts : list Tick) (st : State) (i : nat) (sha : jsstring) :
  snd (ticks ts st) !! i = Some (WriteVersion sha) →
  afterReplacement (snd (ticks ts st)) i.
Proof.
  revert st i. induction ts as [| t ts IH]; intros st i; simpl; [done |].
  destruct (exited st); [done |].
  destruct (checkForUpdates t st) as [st1 tr1] eqn:E1.
  destruct (ticks ts st1) as [st2 tr2] eqn:E2. simpl.
  intros Hi. apply lookup_app_Some in Hi as [Hi | [Hlen Hi]].
  - apply afterReplacement_app_l.
    pose proof (checkForUpdates_write t st i sha) as H. rewrite E1 in H. by apply H.
  - specialize (IH st1 (i - length tr1)). rewrite E2 in IH.
    replace i with (length tr1 + (i - length tr1)) by lia.
    apply afterReplacement_app_r. by apply IH.
Qed.

Lemma ticks_state (ts : list Tick) (st : State) :
  versionFile (fst (ticks ts st)) = afterWrites (snd (ticks ts st)) (versionFile st).
Proof.
  revert st. induction ts as [| t ts IH]; intros st; simpl; [done |].
  destruct (exited st); [done |].
  pose proof (checkForUpdates_state t st) as H1.
  destruct (checkForUpdates t st) as [st1 tr1].
  specialize (IH st1). destruct (ticks ts st1) as [st2 tr2]. simpl in *.
  by rewrite afterWrites_app, <- H1.
Qed.

Lemma startUpdateLoop_write (first : FirstRun) (st : State) (i : nat)
    (written : jsstring) :
  snd (startUpdateLoop first st) !! i = Some (WriteVersion written) →
  firstRunRecord first st i written.
Proof.
  unfold startUpdateLoop, firstRunRecord, enabled.
  destruct (truthy (getLocalVersion st)); simpl;
    [by destruct i as [| [| [| i]]] |].
  destruct (fetched first) as [s |]; [| by destruct i as [| [| [| [| i]]]]].
  destruct (isEmpty s) eqn:He; [by destruct i as [| [| [| [| i]]]] |].
  destruct (recorded first);
    destruct i as [| [| [| [| [| [| i]]]]]]; simpl; try done.
  intros [= <-]. repeat split; try done. by apply JSFacts.isEmpty_false.
Qed.

Lemma startUpdateLoop_state (first : FirstRun) (st : State) :
  versionFile (fst (startUpdateLoop first st))
    = afterWrites (snd (startUpdateLoop first st)) (versionFile st).
Proof.
  unfold startUpdateLoop. destruct (negb _); [| done].
  destruct (fetched first) as [s |]; [| done]. destruct (isEmpty s); [done |].
  destruct (recorded first); [done |]. by destruct (fatal first).
Qed.

Lemma startUpdateLoop_write_not_replacement (first : FirstRun) (st : State) (i : nat)
    (written : jsstring) :
  snd (startUpdateLoop first st) !! i = Some (WriteVersion written) →
  ¬ afterReplacement (snd (startUpdateLoop first st)) i.
Proof.
  intros Hi.
  pose proof (startUpdateLoop_write first st i written Hi) as (-> & Ht & Hf & Hne & Hrec).
  intros (j & [= <-] & Hj). revert Hj. unfold startUpdateLoop.
  rewrite Ht, Hf, Hrec. simpl. by destruct (isEmpty written).
Qed.

(** C5, as the claim has it, fails: on a machine without a [.version]
    file the first run writes the marker although no code has been
    replaced. *)
Lemma startUpdateLoop_records_without_replacement :
  snd (run firstFetch [] freshInstall) !! 3
    = Some (WriteVersion (str "9b1d3e7"))
  ∧ ¬ afterReplacement (snd (run firstFetch [] freshInstall)) 3
  ∧ Forall (λ e, isReplacement e = false)
      (snd (run firstFetch [] freshInstall))
  ∧ versionFile (fst (run firstFetch [] freshInstall))
      = Some (str "9b1d3e7").
Proof.
  split; [reflexivity |]. split; [| split; [by repeat constructor | reflexivity]].
  intros (j & [= <-] & Hj). discriminate Hj.
Qed.

(** C5, amended.  In every run of the updater a write of the marker either
    directly follows a successful code replacement, or is the record of the
    first run: the file gave no version at start and the fetched revision
    is written.  The file holds what these writes left.  A check whose
    download or replacement fails leaves the marker as it was, and so does
    a check that finds the remote unreachable or the revision unchanged,
    and one whose write throws. *)
Theorem marker_written_after_replacement_or_first_run
    (first : FirstRun) (ts : list Tick) (st : State) :
  (∀ i written,
     snd (run first ts st) !! i = Some (WriteVersion written) →
     afterReplacement (snd (run first ts st)) i
     ∨ firstRunRecord first st i written)
  ∧ versionFile (fst (run first ts st))
      = afterWrites (snd (run first ts st)) (versionFile st)
  ∧ (∀ t st0, applyOk t = false → fst (checkForUpdates t st0) = st0)
  ∧ (∀ t st0, versionFile (fst (checkForUpdates t st0)) ≠ versionFile st0 →
       applyOk t = true ∧ writeOk t = true
       ∧ versionFile (fst (checkForUpdates t st0)) = remoteSha t
       ∧ remoteSha t ≠ getLocalVersion st0
       ∧ exited (fst (checkForUpdates t st0)) = true).
Proof.
  split; [| split; [| split]].
  - intros i written. unfold run.
    pose proof (startUpdateLoop_write first st) as Hstart.
    destruct (startUpdateLoop first st) as [st1 tr1].
    pose proof (ticks_write ts st1) as Hticks.
    destruct (ticks ts st1) as [st2 tr2]. simpl in *.
    intros Hi. apply lookup_app_Some in Hi as [Hi | [Hlen Hi]].
    + right. by apply Hstart.
    + left. replace i with (length tr1 + (i - length tr1)) by lia.
      apply afterReplacement_app_r. by eapply Hticks.
  - unfold run. pose proof (startUpdateLoop_state first st) as H1.
    destruct (startUpdateLoop first st) as [st1 tr1].
    pose proof (ticks_state ts st1) as H2.
    destruct (ticks ts st1) as [st2 tr2]. simpl in *.
    by rewrite afterWrites_app, <- H1.
  - intros t st0 Hfail.
    destruct (checkForUpdates_cases t st0) as [[Hsame _] | (s & _ & _ & _ & Hok & _)];
      [done | congruence].
  - intros t st0 Hchange.
    destruct (checkForUpdates_cases t st0)
      as [[Hsame _] | (s & Hs & Hne & Hdiff & Hok & Hw & ->)].
    + by rewrite Hsame in Hchange.
    + simpl. rewrite Hs. done.
Qed.

Lemma marker_written_after_replacement_or_first_run_witness :
  afterReplacement (snd (run noFetch failThenApply running)) 9
  ∧ versionFile (fst (run noFetch failThenApply running)) = Some (str "9b1d3e7")
  ∧ fst (checkForUpdates
           {| remoteSha := Some (str "9b1d3e7"); applyOk := false; writeOk := true |}
           running)
    = running.
Proof.
  pose proof (marker_written_after_replacement_or_first_run noFetch failThenApply running)
    as (Hwrite & Hstate & Hfail & _).
  split; [| split].
  - destruct (Hwrite 9 (str "9b1d3e7") eq_refl) as [H | (H & _)]; [exact H | discriminate H].
  - rewrite Hstate. reflexivity.
  - apply Hfail. reflexivity.
Defined.

End UpdaterFacts.

(** ** The ["data"] handler *)

Module ReaderFacts.
Import JS Parsers Formats JSFacts ParserFacts Reader.

Lemma indexOf_absent (s : jsstring) (c : ascii) : c ∉ s → indexOf s c = (-1)%Z.
Proof.
  induction s as [| a s IH]; simpl; [done |]. intros Hc.
  destruct (Ascii.eqb_spec a c) as [-> | Hne]; [set_solver |].
  rewrite IH by set_solver. done.
Qed.

Lemma indexOf_first (l : jsstring) (c : ascii) (rest : jsstring) :
  c ∉ l → indexOf (l ++ c :: rest) c = Z.of_nat (length l).
Proof.
  induction l as [| a l IH]; simpl; intros Hc.
  - by rewrite Ascii.eqb_refl.
  - destruct (Ascii.eqb_spec a c) as [-> | Hne]; [set_solver |].
    rewrite IH by set_solver.
    destruct (Z.eqb_spec (Z.of_nat (length l)) (-1)); lia.
Qed.

Lemma indexOf_later (l : jsstring) (c : ascii) (rest : jsstring) :
  c ∉ l →
  indexOf (l ++ rest) c = (-1)%Z ∨ (Z.of_nat (length l) ≤ indexOf (l ++ rest) c)%Z.
Proof.
  induction l as [| a l IH]; simpl; intros Hc.
  - induction rest as [| b rest IHr]; simpl; [by left |].
    destruct (Ascii.eqb b c); [right; lia |].
    destruct (Z.eqb_spec (indexOf rest c) (-1)); [by left |].
    right. destruct IHr; lia.
  - destruct (Ascii.eqb_spec a c) as [-> | Hne]; [set_solver |].
    destruct (Z.eqb_spec (indexOf (l ++ rest) c) (-1)); [by left |].
    right. destruct (IH ltac:(set_solver)); lia.
Qed.

Lemma terminatorFree_absent (s : jsstring) : terminatorFree s → CR ∉ s ∧ LF ∉ s.
Proof.
  unfold terminatorFree, isTerminator. rewrite Forall_forall.
  intros H. split; intros Hin; apply (H _ Hin); auto.
Qed.

Lemma nextTerminator_free (buf : jsstring) :
  terminatorFree buf → nextTerminator buf = None.
Proof.
  intros [HR HN]%terminatorFree_absent. unfold nextTerminator.
  by rewrite (indexOf_absent buf CR HR), (indexOf_absent buf LF HN).
Qed.

Lemma nextTerminator_line (l : jsstring) (t : ascii) (rest : jsstring) :
  terminatorFree l → isTerminator t →
  nextTerminator (l ++ t :: rest) = Some (Z.of_nat (length l)).
Proof.
  intros [HR HN]%terminatorFree_absent Ht. unfold nextTerminator.
  destruct Ht as [-> | ->].
  - rewrite (indexOf_first l CR rest HR).
    destruct (indexOf_later l LF (CR :: rest) HN) as [-> | Hge].
    + destruct (Z.eqb_spec (Z.of_nat (length l)) (-1)); [lia | done].
    + destruct (Z.eqb_spec (Z.of_nat (length l)) (-1)); [lia |].
      destruct (Z.eqb_spec (indexOf (l ++ CR :: rest) LF) (-1)); simpl; [done |].
      f_equal. lia.
  - rewrite (indexOf_first l LF rest HN).
    destruct (indexOf_later l CR (LF :: rest) HR) as [-> | Hge].
    + destruct (Z.eqb_spec (Z.of_nat (length l)) (-1)); [lia | done].
    + destruct (Z.eqb_spec (indexOf (l ++ LF :: rest) CR) (-1)); simpl.
      { destruct (Z.eqb_spec (Z.of_nat (length l)) (-1)); [lia | done]. }
      destruct (Z.eqb_spec (Z.of_nat (length l)) (-1)); [lia |].
      f_equal. lia.
Qed.

Lemma slice_line (l : jsstring) (t : ascii) (rest : jsstring) :
  slice (l ++ t :: rest) 0 (Z.of_nat (length l)) = l.
Proof.
  unfold slice. rewrite length_app. cbn [length Z.ltb Z.compare].
  destruct (Z.ltb_spec (Z.of_nat (length l)) 0); [lia |].
  rewrite Z.min_l, Z.min_l by lia. cbn [Z.to_nat drop].
  rewrite Z.sub_0_r, Nat2Z.id. change (Z.to_nat 0) with 0%nat.
  rewrite drop_0. by rewrite take_app_length.
Qed.

Lemma sliceFrom_rest (l : jsstring) (t : ascii) (rest : jsstring) :
  sliceFrom (l ++ t :: rest) (Z.of_nat (length l) + 1) = rest.
Proof.
  unfold sliceFrom, slice. rewrite length_app. cbn [length].
  destruct (Z.ltb_spec (Z.of_nat (length l) + 1) 0); [lia |].
  destruct (Z.ltb_spec (Z.of_nat (length l + S (length rest))) 0); [lia |].
  rewrite Z.min_l, Z.min_l by lia.
  replace (Z.to_nat (Z.of_nat (length l) + 1)) with (length l + 1)%nat by lia.
  replace (l ++ t :: rest) with ((l ++ [t]) ++ rest) by by rewrite <- app_assoc.
  rewrite drop_app_length' by (rewrite length_app; simpl; lia).
  apply take_ge. lia.
Qed.

Lemma drain_unfold (buf : jsstring) :
  drain buf =
    match nextTerminator buf with
    | None => (buf, [])
    | Some idx =>
        (fst (drain (sliceFrom buf (idx + 1))),
         handleLine (trim (slice buf 0 idx)) ++ snd (drain (sliceFrom buf (idx + 1))))
    end.
Proof.
  rewrite drain_equation_1 at 1. unfold drain_unfold_clause_1.
  destruct (inspect (nextTerminator buf)) as [[idx |] H]; simpl; by rewrite H.
Qed.

Lemma drain_free (buf : jsstring) : terminatorFree buf → drain buf = (buf, []).
Proof. intros H. by rewrite drain_unfold, nextTerminator_free. Qed.

Lemma drain_line (l : jsstring) (t : ascii) (rest : jsstring) :
  terminatorFree l → isTerminator t →
  drain (l ++ t :: rest) = (fst (drain rest), handleLine (trim l) ++ snd (drain rest)).
Proof.
  intros Hl Ht. rewrite drain_unfold, nextTerminator_line by done.
  by rewrite slice_line, sliceFrom_rest.
Qed.

Lemma isTerminator_dec (c : ascii) : {isTerminator c} + {¬ isTerminator c}.
Proof.
  unfold isTerminator. destruct (decide (c = CR)); [by left; left |].
  destruct (decide (c = LF)); [by left; right | right; tauto].
Qed.

(** A buffer is without terminator or has a first terminated line. *)
Lemma buffer_cases (buf : jsstring) :
  terminatorFree buf
  ∨ ∃ l t rest, buf = l ++ t :: rest ∧ terminatorFree l ∧ isTerminator t.
Proof.
  induction buf as [| a buf IH]; [left; constructor |].
  destruct (isTerminator_dec a) as [Ha | Ha].
  - right. exists [], a, buf. repeat split; [constructor | done].
  - destruct IH as [Hfree | (l & t & rest & -> & Hl & Ht)].
    + left. by constructor.
    + right. exists (a :: l), t, rest. repeat split; [by constructor | done].
Qed.

(** Induction on a buffer line by line. *)
Lemma buffer_ind (P : jsstring → Prop) :
  (∀ buf, terminatorFree buf → P buf) →
  (∀ l t rest, terminatorFree l → isTerminator t → P rest → P (l ++ t :: rest)) →
  ∀ buf, P buf.
Proof.
  intros Hfree Hline buf.
  remember (length buf) as n eqn:Hn. revert buf Hn.
  induction n as [n IH] using lt_wf_ind. intros buf ->.
  destruct (buffer_cases buf) as [H | (l & t & rest & -> & Hl & Ht)]; [by apply Hfree |].
  apply Hline; [done | done |].
  apply (IH (length rest)); [| done]. rewrite length_app. simpl. lia.
Qed.

Lemma drain_app (x y : jsstring) :
  drain (x ++ y)
  = (fst (drain (fst (drain x) ++ y)),
     snd (drain x) ++ snd (drain (fst (drain x) ++ y))).
Proof.
  induction x as [x Hx | l t rest Hl Ht IH] using buffer_ind.
  - rewrite (drain_free x Hx). simpl. by destruct (drain (x ++ y)).
  - rewrite <- app_assoc. cbn [app].
    rewrite !drain_line by done. cbn [fst snd]. rewrite IH. cbn [fst snd].
    by rewrite app_assoc.
Qed.

Lemma drain_tail_free (buf : jsstring) : terminatorFree (fst (drain buf)).
Proof.
  induction buf as [x Hx | l t rest Hl Ht IH] using buffer_ind.
  - by rewrite (drain_free x Hx).
  - by rewrite drain_line.
Qed.

Lemma trimStart_blank (s : jsstring) :
  Forall (λ c, isSpace c = true) s → trimStart s = [].
Proof. induction 1 as [| c s Hc _ IH]; simpl; [done | by rewrite Hc]. Qed.

Lemma trim_blank (s : jsstring) : Forall (λ c, isSpace c = true) s → trim s = [].
Proof. intros H. unfold trim. by rewrite (trimStart_blank s H). Qed.

(** The normalizer against the three formats (shared with the results on
    the normalizer). *)
Lemma parseCardData_canonical (raw r : jsstring) :
  parseCardData raw = Some r ↔ Canonical raw r.
Proof.
  rewrite parseCardData_unfold. unfold nextFormats, Canonical.
  rewrite <- fullParser_spec, <- mobileParser_spec, <- shortParser_spec.
  destruct (fullParser raw) as [r1 |] eqn:Hfull.
  { split; [intros [= <-]; by left |].
    intros [H | [H | H]]; [done | |].
    - apply mobileParser_spec in H as (_ & Hdec & _).
      unfold fullParser in Hfull. by rewrite decimal_no_separator in Hfull.
    - apply shortParser_spec in H as (_ & Hdec & _).
      unfold fullParser in Hfull. by rewrite decimal_no_separator in Hfull. }
  destruct (mobileParser raw) as [r2 |] eqn:Hmob.
  { split; [intros [= <-]; right; by left |].
    intros [H | [H | H]]; [done | done |].
    apply mobileParser_spec in Hmob as (Hl16 & _).
    apply shortParser_spec in H as (Hl9 & _). lia. }
  split; [intros H; right; by right |].
  by intros [H | [H | H]].
Qed.

Lemma parseCardData_nonempty (raw r : jsstring) :
  parseCardData raw = Some r → r ≠ [].
Proof.
  intros H. apply parseCardData_decimal in H as [_ Hlen]. intros ->. simpl in Hlen. lia.
Qed.

Lemma handleLine_cases (line : jsstring) :
  (line = [] ∧ handleLine line = [])
  ∨ (line ≠ [] ∧ ∃ cardId, parseCardData line = Some cardId
                          ∧ handleLine line = [CardScanned cardId])
  ∨ (line ≠ [] ∧ parseCardData line = None ∧ handleLine line = [ParseFailed line]).
Proof.
  unfold handleLine. destruct line as [| c line]; [by left |]. right.
  cbn [isEmpty]. destruct (parseCardData (c :: line)) as [r |] eqn:E.
  - left. split; [done |]. exists r. split; [done |].
    pose proof (parseCardData_nonempty _ _ E) as Hr.
    unfold truthy. apply isEmpty_false in Hr. by rewrite Hr.
  - right. by repeat split.
Qed.

End ReaderFacts.

(** ** The ["data"] handler: results *)

Module ReaderResults.
Import JS Parsers Formats JSFacts ParserFacts Reader ReaderWords ReaderFacts.

Lemma terminates_spec (c : ascii) : terminates c = true ↔ isTerminator c.
Proof.
  unfold terminates, isTerminator. rewrite orb_true_iff, !Ascii.eqb_eq. tauto.
Qed.


Lemma cut_line (l : jsstring) (t : ascii) (rest : jsstring) :
  terminatorFree l → isTerminator t →
  cut (l ++ t :: rest) = (l :: fst (cut rest), snd (cut rest)).
Proof.
  intros Hl Ht. induction Hl as [| c l Hc _ IH]; simpl.
  - apply terminates_spec in Ht. rewrite Ht. by destruct (cut rest).
  - rewrite IH. destruct (terminates c) eqn:E; [| done]. by apply terminates_spec in E.
Qed.

Lemma drain_last_terminator (pre : jsstring) (t : ascii) :
  isTerminator t → fst (drain (pre ++ [t])) = [].
Proof.
  intros Ht. induction pre as [x Hx | l t' rest Hl Ht' IH] using buffer_ind.
  - rewrite drain_line by done. by rewrite (drain_free []) by constructor.
  - rewrite <- app_assoc. cbn [app]. by rewrite drain_line.
Qed.

(** X1.  Between two ["data"] events the buffer holds no line terminator: it
    is the text that followed the last CR or LF received so far, and the
    whole text while none has been received; nothing is parsed before a
    terminator arrives.  This holds whatever the decoding of a chunk's
    bytes gives. *)
Theorem onData_buffer_is_unterminated_tail (toString : list byte → jsstring)
    (buf : jsstring) (chunk : list byte) :
  terminatorFree (fst (onData toString buf chunk))
  ∧ (terminatorFree (buf ++ toString chunk) →
     onData toString buf chunk = (buf ++ toString chunk, []))
  ∧ (∀ pre t tail,
       buf ++ toString chunk = pre ++ t :: tail → isTerminator t →
       terminatorFree tail →
       fst (onData toString buf chunk) = tail).
Proof.
  unfold onData. split; [apply drain_tail_free |]. split; [apply drain_free |].
  intros pre t tail -> Ht Htail.
  replace (pre ++ t :: tail) with ((pre ++ [t]) ++ tail) by by rewrite <- app_assoc.
  rewrite drain_app. cbn [fst]. rewrite (drain_last_terminator pre t Ht). cbn [app].
  by rewrite drain_free.
Qed.

Lemma onData_buffer_is_unterminated_tail_witness :
  fst (onData asciiText (str "1111") (bytesOf "11" ++ crlf ++ bytesOf "60177"))
    = str "60177"
  ∧ onData asciiText (str "1111") (bytesOf "11") = (str "111111", []).
Proof.
  split.
  - refine (proj2 (proj2 (onData_buffer_is_unterminated_tail asciiText (str "1111")
                            (bytesOf "11" ++ crlf ++ bytesOf "60177")))
              (str "111111" ++ [CR]) LF (str "60177") eq_refl _ _).
    + by right.
    + repeat constructor; by intros [? | ?].
  - refine (proj1 (proj2 (onData_buffer_is_unterminated_tail asciiText (str "1111")
                            (bytesOf "11"))) _).
    repeat constructor; by intros [? | ?].
Defined.

(** Bytes that are all ASCII decode one by one, so every cut of them
    splits. *)
Lemma asciiText_splits (chunk1 chunk2 : list byte) :
  splitsAt asciiText chunk1 chunk2.
Proof. apply map_app. Qed.

(** X2.  Each chunk is decoded on its own before it is appended.  Where the
    serial bytes are cut into chunks does not matter as long as the cut
    does not fall inside the bytes of one character, that is, as long as
    decoding the two chunks one after the other gives the decoding of the
    whole: then handling the two chunks in turn leaves the same buffer and
    does the same things, in the same order, as handling them as one
    chunk. *)
Theorem onData_chunking_irrelevant (toString : list byte → jsstring)
    (buf : jsstring) (chunk1 chunk2 : list byte) :
  splitsAt toString chunk1 chunk2 →
  onData toString buf (chunk1 ++ chunk2)
  = (fst (onData toString (fst (onData toString buf chunk1)) chunk2),
     snd (onData toString buf chunk1)
     ++ snd (onData toString (fst (onData toString buf chunk1)) chunk2)).
Proof.
  unfold splitsAt, onData. intros ->. rewrite app_assoc. apply drain_app.
Qed.

Lemma onData_chunking_irrelevant_witness :
  splitsAt asciiText (bytesOf "1111") (bytesOf "11" ++ crlf)
  ∧ onData asciiText [] (bytesOf "1111" ++ bytesOf "11" ++ crlf)
    = (fst (onData asciiText (fst (onData asciiText [] (bytesOf "1111")))
              (bytesOf "11" ++ crlf)),
       snd (onData asciiText [] (bytesOf "1111"))
       ++ snd (onData asciiText (fst (onData asciiText [] (bytesOf "1111")))
                 (bytesOf "11" ++ crlf))).
Proof.
  split; [reflexivity |].
  apply (onData_chunking_irrelevant asciiText [] (bytesOf "1111") (bytesOf "11" ++ crlf)).
  reflexivity.
Defined.


(** X4.  A line of white space only, and the empty line between the CR and
    the LF of a CRLF pair, is dropped without a scan and without a
    warning. *)
Theorem drain_skips_blank_lines (line : jsstring) (t : ascii) (rest : jsstring) :
  terminatorFree line → blank line → isTerminator t →
  drain (line ++ t :: rest) = drain rest.
Proof.
  intros Hl Hb Ht. rewrite drain_line by done. rewrite (trim_blank line Hb).
  by destruct (drain rest).
Qed.

Lemma drain_skips_blank_lines_witness :
  drain (str "  " ++ CR :: LF :: str "111111") = (str "111111", []).
Proof.
  etransitivity.
  { apply (drain_skips_blank_lines (str "  ") CR (LF :: str "111111")).
    - repeat constructor; by intros [? | ?].
    - by repeat constructor.
    - by left. }
  etransitivity.
  { apply (drain_skips_blank_lines [] LF (str "111111"));
      [constructor | constructor | by right]. }
  reflexivity.
Defined.

(** X5.  Everything the handler does comes from one complete line of the
    buffer: a card is forwarded only with the decimal identifier, of nine
    characters or more, that the normalizer gives the trimmed line; a
    warning names a trimmed line that is not empty and that the normalizer
    rejects.  There are never more outcomes than complete lines. *)
Theorem drain_outcomes_sound (buf : jsstring) :
  Forall (λ o, ∃ line, line ∈ fst (cut buf) ∧ outcomeOf line o) (snd (drain buf))
  ∧ length (snd (drain buf)) ≤ length (fst (cut buf)).
Proof.
  induction buf as [x Hx | l t rest Hl Ht [IH1 IH2]] using buffer_ind.
  - rewrite drain_free by done. split; [constructor | simpl; lia].
  - rewrite drain_line, cut_line by done. cbn [fst snd]. split.
    + apply Forall_app. split.
      * destruct (handleLine_cases (trim l))
          as [[_ ->] | [(Hne & r & Hr & ->) | (Hne & Hnone & ->)]];
          [constructor | |]; repeat constructor; exists l; (split; [set_solver |]).
        -- pose proof (parseCardData_decimal _ _ Hr) as [? ?]. by repeat split.
        -- by repeat split.
      * eapply Forall_impl; [exact IH1 |]. intros o (line & Hin & Ho).
        exists line. split; [set_solver | done].
    + rewrite length_app. cbn [length].
      destruct (handleLine_cases (trim l))
        as [[_ ->] | [(_ & r & _ & ->) | (_ & _ & ->)]]; simpl; lia.
Qed.

End ReaderResults.

(** ** Delivery: how a delivery runs and ends *)

Module DeliveryResults.
Import Delivery Samples DeliveryWords DeliveryFacts.
Local Open Scope Z_scope.

Lemma whole_within (k : Z) (q : Q) : (inject_Z k <= q)%Q → k ≤ Qceiling q.
Proof. intros H. rewrite Zle_Qle. eapply Qle_trans; [exact H | apply Qle_ceiling]. Qed.

(** One call of [sendToServer], by the way it ends. *)
Lemma sendToServer_step (config : Config) (net : Z → Reply) (scan : Scan) (attempt : Z) :
  (isThrown (net attempt) = true
   ∧ sendToServer config net scan attempt = [Threw])
  ∨ (isUnanswered (net attempt) = true
     ∧ sendToServer config net scan attempt = [POST scan attempt])
  ∨ (delivered (net attempt) = true
     ∧ sendToServer config net scan attempt = [POST scan attempt; postOk])
  ∨ (failed (net attempt) = true ∧ ¬ attempt < Qceiling (sendRetries config)
     ∧ sendToServer config net scan attempt
       = [POST scan attempt; Logged (failureLine (net attempt)); gaveUp])
  ∨ (failed (net attempt) = true ∧ attempt < Qceiling (sendRetries config)
     ∧ sendToServer config net scan attempt
       = POST scan attempt :: Logged (failureLine (net attempt)) :: retrying ::
         SetTimeout (sendRetryDelay config) ::
         sendToServer config net scan (attempt + 1)).
Proof.
  pose proof (sendToServer_unfold config net scan attempt) as H.
  destruct (isThrown (net attempt)) eqn:Ht; [by left |].
  destruct (isUnanswered (net attempt)) eqn:Hu; [by right; left |].
  destruct (delivered (net attempt)) eqn:Hd; [by right; right; left |].
  assert (failed (net attempt) = true) as Hf.
  { destruct (net attempt) as [c | | |]; simpl in *; try done. by rewrite Hd. }
  case_decide; [by do 4 right | by right; right; right; left].
Qed.

Lemma failureLine_other (r : Reply) :
  Logged (failureLine r) ≠ postOk ∧ Logged (failureLine r) ≠ gaveUp
  ∧ Logged (failureLine r) ≠ Threw.
Proof. by destruct r. Qed.

Lemma sendToServer_success_at (config : Config) (net : Z → Reply) (scan : Scan)
    (k : Z) (n : nat) (attempt : Z) :
  n = Z.to_nat (k - attempt) → attempt ≤ k →
  k ≤ Qceiling (sendRetries config) ∨ attempt = k →
  delivered (net k) = true →
  (∀ a, attempt ≤ a < k → failed (net a) = true) →
  attempts (sendToServer config net scan attempt) = S n
  ∧ last (sendToServer config net scan attempt) = Some postOk
  ∧ gaveUp ∉ sendToServer config net scan attempt.
Proof.
  revert attempt. induction n as [| n IH]; intros attempt Hn Hle Hlim Hok Hfail.
  - assert (attempt = k) as -> by lia.
    destruct (delivered_cases _ Hok) as [Ht Hu].
    rewrite sendToServer_unfold, Ht, Hu, Hok. split; [done |]. split; [done |].
    unfold gaveUp. set_solver.
  - assert (attempt < k) as Hlt by lia.
    destruct (failed_cases _ (Hfail attempt ltac:(lia))) as (Ht & Hu & Hd).
    rewrite sendToServer_unfold, Ht, Hu, Hd.
    case_decide; [| lia].
    destruct (IH (attempt + 1)) as (Ha & Hl & Hg); [lia | lia | left; lia | done | |].
    { intros a Ha. apply Hfail. lia. }
    split; [| split].
    + rewrite attempts_cons_post, !attempts_cons_other by done. by rewrite Ha.
    + by rewrite !last_cons, Hl.
    + pose proof (failureLine_other (net attempt)) as (_ & Hother & _).
      unfold gaveUp, retrying in *. set_solver.
Qed.

(** X6.  A delivery stops at the first request that is answered 2xx: when
    the requests before the [k]-th are made and fail and the [k]-th
    succeeds (with [k] within the number of requests the configured count
    allows: the count rounded up, and one at least), exactly [k] requests
    are made, the last line logged is the success, and no give-up is
    logged. *)
Theorem deliver_stops_at_first_success (config : Config) (net : Z → Reply)
    (scan : Scan) (k : Z) :
  1 ≤ k → k ≤ allowed config →
  delivered (net k) = true →
  (∀ a, 1 ≤ a < k → failed (net a) = true) →
  Z.of_nat (attempts (deliver config net scan)) = k
  ∧ last (deliver config net scan) = Some postOk
  ∧ gaveUp ∉ deliver config net scan.
Proof.
  intros Hk Hlim Hok Hfail. unfold deliver, allowed in *.
  destruct (sendToServer_success_at config net scan k (Z.to_nat (k - 1)) 1 eq_refl)
    as (Ha & Hl & Hg); [lia | lia | done | done |].
  rewrite Ha. split; [lia |]. by split.
Qed.

Lemma deliver_stops_at_first_success_witness :
  attempts (deliver installed thirdTime sampleScan) = 3%nat
  ∧ last (deliver installed thirdTime sampleScan) = Some postOk.
Proof.
  destruct (deliver_stops_at_first_success installed thirdTime sampleScan 3)
    as (Ha & Hl & _).
  - lia.
  - by vm_compute.
  - reflexivity.
  - intros a Ha. unfold thirdTime. destruct (Z.ltb_spec a 3); [done | lia].
  - split; [lia | exact Hl].
Defined.

Lemma schedule_cons_other (e : Effect) (tr : list Effect) :
  isPost e = false → (∀ delay, e ≠ SetTimeout delay) →
  schedule (e :: tr) = schedule tr.
Proof. intros Hp Ht. destruct e; try done. by destruct (Ht delay). Qed.

Lemma sendToServer_numbering (config : Config) (net : Z → Reply) (scan : Scan)
    (n : nat) (attempt : Z) :
  n = Z.to_nat (Qceiling (sendRetries config) - attempt) →
  postNumbers (sendToServer config net scan attempt)
    = seqZ attempt (Z.of_nat (attempts (sendToServer config net scan attempt)))
  ∧ postScans (sendToServer config net scan attempt)
    = replicate (attempts (sendToServer config net scan attempt)) scan
  ∧ schedule (sendToServer config net scan attempt)
    = alternating (sendRetryDelay config) attempt
        (attempts (sendToServer config net scan attempt))
      ++ lostTimer (sendRetryDelay config) (sendToServer config net scan attempt)
  ∧ (attempts (sendToServer config net scan attempt) = 0%nat →
     sendToServer config net scan attempt = [Threw]).
Proof.
  revert attempt. induction n as [| n IH]; intros attempt Hn;
    destruct (sendToServer_step config net scan attempt)
      as [[_ ->] | [[_ ->] | [[_ ->] | [(_ & _ & ->) | (_ & Hlt & ->)]]]];
    try done; try lia.
  destruct (IH (attempt + 1) ltac:(lia)) as (Hp & Hs & Hd & Hzero).
  rewrite attempts_cons_post, !attempts_cons_other by done.
  unfold postNumbers, postScans in *. cbn [omap list_omap].
  replace (schedule (POST scan attempt :: Logged (failureLine (net attempt)) ::
                     retrying :: SetTimeout (sendRetryDelay config) ::
                     sendToServer config net scan (attempt + 1)))
    with (inl attempt :: inr (sendRetryDelay config)
          :: schedule (sendToServer config net scan (attempt + 1)))
    by reflexivity.
  replace (lostTimer (sendRetryDelay config)
             (POST scan attempt :: Logged (failureLine (net attempt)) ::
              retrying :: SetTimeout (sendRetryDelay config) ::
              sendToServer config net scan (attempt + 1)))
    with (if existsb isThrew (sendToServer config net scan (attempt + 1))
          then [inr (sendRetryDelay config) : Z + Q] else [])
    by (unfold lostTimer;
        rewrite attempts_cons_post, !attempts_cons_other by done;
        cbn [existsb isThrew orb Nat.ltb Nat.leb]; by rewrite andb_true_r).
  rewrite Hp, Hs, Hd. split; [| split; [| split]].
  - rewrite (seqZ_cons attempt) by lia. do 2 f_equal. lia.
  - done.
  - unfold lostTimer.
    destruct (attempts (sendToServer config net scan (attempt + 1))) as [| m] eqn:Hm.
    + rewrite (Hzero eq_refl). reflexivity.
    + cbn [alternating Nat.ltb Nat.leb andb]. rewrite andb_true_r. reflexivity.
  - lia.
Qed.

(** X7.  Whatever the calls answer, the requests of one event are numbered
    1, 2, 3, ... without gap or repeat and all carry the same scan.
    Requests and timers alternate: the first request is made at once,
    between each request and the next exactly one timer is set, for
    [sendRetryDelay], and no timer is set before the first request or
    after the last; except that a timer whose call throws before its
    request is made is the last thing scheduled. *)
Theorem deliver_attempts_numbered (config : Config) (net : Z → Reply) (scan : Scan) :
  postNumbers (deliver config net scan)
    = seqZ 1 (Z.of_nat (attempts (deliver config net scan)))
  ∧ postScans (deliver config net scan)
    = replicate (attempts (deliver config net scan)) scan
  ∧ schedule (deliver config net scan)
    = alternating (sendRetryDelay config) 1 (attempts (deliver config net scan))
      ++ lostTimer (sendRetryDelay config) (deliver config net scan).
Proof.
  unfold deliver.
  destruct (sendToServer_numbering config net scan _ 1 eq_refl) as (Hp & Hs & Hd & _).
  done.
Qed.

Lemma absent_retry (e : Effect) (r : Reply) (scan : Scan) (attempt : Z) (delay : Q)
    (tr : list Effect) :
  e = postOk ∨ e = gaveUp ∨ e = Threw →
  e ∉ tr →
  e ∉ POST scan attempt :: Logged (failureLine r) :: retrying :: SetTimeout delay :: tr.
Proof.
  intros He Htr. pose proof (failureLine_other r) as (H1 & H2 & H3).
  unfold postOk, gaveUp, retrying in *.
  destruct He as [-> | [-> | ->]]; set_solver.
Qed.

Lemma sendToServer_ends (config : Config) (net : Z → Reply) (scan : Scan)
    (n : nat) (attempt : Z) :
  n = Z.to_nat (Qceiling (sendRetries config) - attempt) →
  let tr := sendToServer config net scan attempt in
  let made := Z.of_nat (attempts tr) in
  (endsThrown tr ∧ isThrown (net (attempt + made)) = true
   ∧ ∀ a, attempt ≤ a < attempt + made → failed (net a) = true)
  ∨ (endsDelivered tr ∧ delivered (net (attempt + made - 1)) = true
     ∧ ∀ a, attempt ≤ a < attempt + made - 1 → failed (net a) = true)
  ∨ (endsGivenUp tr ∧ 1 ≤ made
     ∧ ¬ attempt + made - 1 < Qceiling (sendRetries config)
     ∧ ∀ a, attempt ≤ a < attempt + made → failed (net a) = true)
  ∨ (endsWaiting tr ∧ isUnanswered (net (attempt + made - 1)) = true
     ∧ ∀ a, attempt ≤ a < attempt + made - 1 → failed (net a) = true).
Proof.
  revert attempt. induction n as [| n IH]; intros attempt Hn; cbv zeta;
    destruct (sendToServer_step config net scan attempt)
      as [[Ht ->] | [[Hu ->] | [[Hd ->] | [(Hf & Hge & ->) | (Hf & Hlt & ->)]]]];
    try lia.
  1, 5: left; replace (attempt + Z.of_nat (attempts [Threw])) with attempt
          by (cbn; lia);
        split; [| split; [done | cbn; lia]];
        unfold endsThrown, postOk, gaveUp; split; [done | set_solver].
  1, 4: do 3 right;
        replace (attempt + Z.of_nat (attempts [POST scan attempt]) - 1) with attempt
          by (cbn; lia);
        split; [| split; [done | lia]];
        unfold endsWaiting, postOk, gaveUp; split; [by eexists _, _ | set_solver].
  1, 3: right; left;
        replace (attempt + Z.of_nat (attempts [POST scan attempt; postOk]) - 1)
          with attempt by (cbn; lia);
        split; [| split; [done | lia]];
        unfold endsDelivered, postOk, gaveUp; split; [done | set_solver].
  1: right; right; left;
        rewrite attempts_cons_post, !attempts_cons_other by done;
        change (attempts (@nil Effect)) with 0%nat;
        split; [| split; [lia | split; [lia |]]];
        [ pose proof (failureLine_other (net attempt)) as (H1 & H2 & H3);
          unfold endsGivenUp, postOk, gaveUp in *; split; [done | set_solver]
        | intros a Ha; by replace a with attempt by lia ].
  rewrite attempts_cons_post, !attempts_cons_other by done.
  pose proof (IH (attempt + 1) ltac:(lia)) as IH'. cbv zeta in IH'. clear IH.
  set (rest := sendToServer config net scan (attempt + 1)) in *.
  assert (∀ x, last rest = Some x →
          last (POST scan attempt :: Logged (failureLine (net attempt)) ::
                retrying :: SetTimeout (sendRetryDelay config) :: rest) = Some x)
    as Hlast.
  { intros x Hx. by rewrite !last_cons, Hx. }
  assert (∀ a, attempt ≤ a < attempt + 1 + Z.of_nat (attempts rest) - 1 →
               (∀ b, attempt + 1 ≤ b < attempt + 1 + Z.of_nat (attempts rest) - 1 →
                     failed (net b) = true) → failed (net a) = true) as Hall.
  { intros a Ha Hb. destruct (decide (a = attempt)) as [-> | Hne]; [done |].
    apply Hb. lia. }
  destruct IH'
    as [((Hl & H1 & H2) & Hr & Hb) | [((Hl & H1 & H2) & Hr & Hb)
        | [((Hl & H1 & H2) & Hone & Hge & Hb) | (((sc & at' & Hl) & H1 & H2 & H3) & Hr & Hb)]]].
  - left. split; [| split].
    + split; [by apply Hlast |].
      split; apply absent_retry; auto.
    + by replace (attempt + Z.of_nat (S (attempts rest)))
        with (attempt + 1 + Z.of_nat (attempts rest)) by lia.
    + intros a Ha. destruct (decide (a = attempt)) as [-> | Hne]; [done |].
      apply Hb. lia.
  - right; left. split; [| split].
    + split; [by apply Hlast |].
      split; apply absent_retry; auto.
    + by replace (attempt + Z.of_nat (S (attempts rest)) - 1)
        with (attempt + 1 + Z.of_nat (attempts rest) - 1) by lia.
    + intros a Ha. apply Hall; [lia | done].
  - right; right; left. split; [| split; [lia | split]].
    + split; [by apply Hlast |].
      split; apply absent_retry; auto.
    + lia.
    + intros a Ha. destruct (decide (a = attempt)) as [-> | Hne]; [done |].
      apply Hb. lia.
  - do 3 right. split; [| split].
    + split; [exists sc, at'; by apply Hlast |].
      split; [| split]; apply absent_retry; auto.
    + by replace (attempt + Z.of_nat (S (attempts rest)) - 1)
        with (attempt + 1 + Z.of_nat (attempts rest) - 1) by lia.
    + intros a Ha. apply Hall; [lia | done].
Qed.

(** X8.  Every delivery ends in exactly one of four ways, told apart by
    what its trace ends with.  A call throws before its request is made
    (the first call, or one made by a timer), after all requests made
    have failed; nothing is logged by the pipeline.  Or the last request
    is answered 2xx after all earlier ones failed: the success is the
    last line and no give-up is logged.  Or every request made has
    failed and the count allows no more: the give-up is the last line
    and no success is logged.  Or the last request is never answered, by
    a response's end or by an error: no time limit is set on a request,
    so nothing follows it, neither success nor give-up. *)
Theorem deliver_ends_delivered_or_given_up (config : Config) (net : Z → Reply)
    (scan : Scan) :
  let tr := deliver config net scan in
  let made := Z.of_nat (attempts tr) in
  (endsThrown tr ∧ isThrown (net (made + 1)) = true
   ∧ ∀ a, 1 ≤ a ≤ made → failed (net a) = true)
  ∨ (endsDelivered tr ∧ delivered (net made) = true
     ∧ ∀ a, 1 ≤ a < made → failed (net a) = true)
  ∨ (endsGivenUp tr ∧ 1 ≤ made ∧ made = allowed config
     ∧ ∀ a, 1 ≤ a ≤ made → failed (net a) = true)
  ∨ (endsWaiting tr ∧ isUnanswered (net made) = true
     ∧ ∀ a, 1 ≤ a < made → failed (net a) = true).
Proof.
  cbv zeta. unfold deliver.
  pose proof (attempts_sendToServer config net scan _ 1 eq_refl) as Hmax.
  destruct (sendToServer_ends config net scan _ 1 eq_refl)
    as [(He & Hr & Hb) | [(He & Hr & Hb) | [(He & Hone & Hge & Hb) | (He & Hr & Hb)]]];
    cbv zeta in *.
  - left. split; [done |]. split.
    + by rewrite Z.add_comm.
    + intros a Ha. apply Hb. lia.
  - right; left. split; [done |]. split.
    + by replace (Z.of_nat (attempts (sendToServer config net scan 1)))
        with (1 + Z.of_nat (attempts (sendToServer config net scan 1)) - 1) by lia.
    + intros a Ha. apply Hb. lia.
  - right; right; left. split; [done |]. split; [done |]. split.
    + unfold allowed. lia.
    + intros a Ha. apply Hb. lia.
  - do 3 right. split; [done |]. split.
    + by replace (Z.of_nat (attempts (sendToServer config net scan 1)))
        with (1 + Z.of_nat (attempts (sendToServer config net scan 1)) - 1) by lia.
    + intros a Ha. apply Hb. lia.
Qed.

Lemma deliver_ends_delivered_or_given_up_witness :
  endsWaiting (deliver installed goesSilent sampleScan).
Proof.
  assert (∀ a, isThrown (goesSilent a) = false ∧ delivered (goesSilent a) = false)
    as Hnever by (intros a; unfold goesSilent; by destruct (a <? 2)).
  destruct (deliver_ends_delivered_or_given_up installed goesSilent sampleScan)
    as [(_ & Ht & _) | [(_ & Hd & _) | [(_ & Hone & Hall & Hf) | (He & _)]]].
  - by rewrite (proj1 (Hnever _)) in Ht.
  - by rewrite (proj2 (Hnever _)) in Hd.
  - rewrite Hall in Hf. specialize (Hf 3 ltac:(by vm_compute)). discriminate Hf.
  - exact He.
Defined.

End DeliveryResults.

(** ** Facts about [trim] *)

Module TrimFacts.
Import JS JSFacts ReaderWords UpdaterWords ReaderFacts.

Lemma trimStart_split (s : jsstring) :
  ∃ ws, s = ws ++ trimStart s ∧ blank ws.
Proof.
  induction s as [| c s (ws & Hs & Hws)]; simpl;
    [exists []; split; [done | constructor] |].
  destruct (isSpace c) eqn:E.
  - exists (c :: ws). split; [simpl; by rewrite <- Hs | by constructor].
  - exists []. split; [done | constructor].
Qed.

Lemma trimStart_head (s : jsstring) (c : ascii) :
  head (trimStart s) = Some c → isSpace c = false.
Proof.
  induction s as [| a s IH]; simpl; [done |].
  destruct (isSpace a) eqn:E; [done |]. by intros [= <-].
Qed.

Lemma trimStart_fixed (s : jsstring) :
  (∀ c, head s = Some c → isSpace c = false) → trimStart s = s.
Proof. destruct s as [| a s]; simpl; [done |]. intros H. by rewrite (H a). Qed.

Lemma trimStart_app_blank (ws s : jsstring) :
  blank ws → trimStart (ws ++ s) = trimStart s.
Proof. induction 1 as [| c ws Hc _ IH]; simpl; [done | by rewrite Hc]. Qed.

Lemma blank_rev (ws : jsstring) : blank ws → blank (rev ws).
Proof.
  unfold blank. rewrite !Forall_forall. intros H c Hc. apply H.
  apply list_elem_of_In, in_rev. by apply list_elem_of_In.
Qed.

Lemma head_rev (s : jsstring) : head (rev s) = last s.
Proof.
  induction s as [| a s IH] using rev_ind; [done |].
  by rewrite rev_unit, last_snoc.
Qed.

(** [trim] removes white space around a tight core and nothing else. *)
Lemma trim_around (ws1 core ws2 : jsstring) :
  blank ws1 → blank ws2 → tight core → trim (ws1 ++ core ++ ws2) = core.
Proof.
  intros H1 H2 Hcore. unfold trim. rewrite trimStart_app_blank by done.
  destruct core as [| a core].
  - cbn [app]. rewrite (trimStart_blank ws2 H2). done.
  - assert (trimStart ((a :: core) ++ ws2) = (a :: core) ++ ws2) as ->.
    { apply trimStart_fixed. intros c [= <-]. apply Hcore. by left. }
    rewrite rev_app_distr, trimStart_app_blank by by apply blank_rev.
    rewrite trimStart_fixed; [apply rev_involutive |].
    intros c Hc. rewrite head_rev in Hc. apply Hcore. by right.
Qed.


End TrimFacts.

(** ** The updater across checks and restarts *)

Module UpdaterResults.
Import JS JSFacts Updater Samples ReaderWords UpdaterWords TrimFacts UpdaterFacts.

Lemma checkForUpdates_same (t : Tick) (st : State) (sha : jsstring) :
  remoteSha t = Some sha → getLocalVersion st = Some sha →
  checkForUpdates t st = (st, [FetchRemote]).
Proof.
  intros Hr Hl. unfold checkForUpdates. rewrite Hr, Hl.
  destruct (isEmpty sha); [done |]. by rewrite bool_decide_true.
Qed.

(** X9.  The revision in [.version] is compared without the white space
    around it: when the file holds the remote revision, with or without a
    line end or blanks around it, a check downloads and replaces nothing
    and leaves the file as it is. *)
Theorem checkForUpdates_ignores_surrounding_space (t : Tick) (st : State)
    (ws1 sha ws2 : jsstring) :
  blank ws1 → blank ws2 → tight sha →
  versionFile st = Some (ws1 ++ sha ++ ws2) →
  remoteSha t = Some sha →
  checkForUpdates t st = (st, [FetchRemote]).
Proof.
  intros H1 H2 Hsha Hfile Hremote.
  apply (checkForUpdates_same t st sha Hremote).
  unfold getLocalVersion. rewrite Hfile. simpl. by rewrite trim_around.
Qed.

Lemma checkForUpdates_ignores_surrounding_space_witness :
  checkForUpdates applies
    {| versionFile := Some revisionLine; exited := false |}
  = ({| versionFile := Some revisionLine; exited := false |}, [FetchRemote]).
Proof.
  apply (checkForUpdates_ignores_surrounding_space _ _ [] revision [Reader.LF]).
  - constructor.
  - by repeat constructor.
  - intros c [[= <-] | [= <-]]; split; (reflexivity || discriminate).
  - reflexivity.
  - reflexivity.
Defined.


Lemma replacements_app (tr1 tr2 : list Effect) :
  replacements (tr1 ++ tr2) = replacements tr1 + replacements tr2.
Proof. unfold replacements. by rewrite List.filter_app, length_app. Qed.



Lemma ticks_exited (ts : list Tick) (st : State) :
  exited st = true → ticks ts st = (st, []).
Proof. intros H. destruct ts; simpl; [done | by rewrite H]. Qed.




Lemma checkForUpdates_exit (t : Tick) (st : State) :
  exited st = false → writeOk t = true →
  (exited (fst (checkForUpdates t st)) = false
   ∧ Exit 0 ∉ snd (checkForUpdates t st)
   ∧ replacements (snd (checkForUpdates t st)) = 0)
  ∨ (exited (fst (checkForUpdates t st)) = true
     ∧ last (snd (checkForUpdates t st)) = Some (Exit 0)
     ∧ replacements (snd (checkForUpdates t st)) = 1).
Proof.
  intros Hrun Hw. unfold checkForUpdates. rewrite Hw.
  destruct (remoteSha t) as [sha |]; [| left; split; [done | split; [set_solver | done]]].
  destruct (isEmpty sha); [left; split; [done | split; [set_solver | done]] |].
  case_bool_decide; [left; split; [done | split; [set_solver | done]] |].
  destruct (applyOk t).
  - right. by repeat split.
  - left. split; [done | split; [set_solver | done]].
Qed.

Lemma ticks_exit (ts : list Tick) (st : State) :
  exited st = false → Forall (λ t, writeOk t = true) ts →
  (exited (fst (ticks ts st)) = false
   ∧ Exit 0 ∉ snd (ticks ts st)
   ∧ replacements (snd (ticks ts st)) = 0)
  ∨ (exited (fst (ticks ts st)) = true
     ∧ last (snd (ticks ts st)) = Some (Exit 0)
     ∧ replacements (snd (ticks ts st)) = 1).
Proof.
  intros Hrun Hws. revert st Hrun.
  induction Hws as [| t ts Hw _ IH]; intros st Hrun; simpl.
  { left. split; [done | split; [set_solver | done]]. }
  rewrite Hrun. pose proof (checkForUpdates_exit t st Hrun Hw) as Hc.
  destruct (checkForUpdates t st) as [st1 tr1]. cbn [fst snd] in Hc.
  destruct Hc as [(He & Hx & Hr) | (He & Hx & Hr)].
  - specialize (IH st1 He). destruct (ticks ts st1) as [st2 tr2]. cbn [fst snd] in *.
    rewrite replacements_app, Hr.
    destruct IH as [(He2 & Hx2 & Hr2) | (He2 & Hx2 & Hr2)].
    + left. split; [done |]. split; [| done]. set_solver.
    + right. split; [done |]. split; [| done].
      rewrite last_app, Hx2. done.
  - rewrite (ticks_exited ts st1 He). cbn [fst snd]. rewrite app_nil_r.
    right. by repeat split.
Qed.

(** X12.  As long as every write of [.version] that a check makes returns,
    a run of the updater replaces the code at most once: the check that
    replaces it ends with [process.exit(0)], which is then the last thing
    the run does, and the checks after it do not happen.  A run without
    replacement does not exit, with one exception: the write of the first
    run throws and the runtime ends the process on the unhandled
    rejection, which is then the last thing the run does.  (X10 has the
    check whose write throws.) *)
Theorem run_replaces_once_then_exits (first : FirstRun) (ts : list Tick)
    (st : State) :
  exited st = false → Forall (λ t, writeOk t = true) ts →
  (exited (fst (run first ts st)) = false
   ∧ Exit 0 ∉ snd (run first ts st)
   ∧ replacements (snd (run first ts st)) = 0)
  ∨ (exited (fst (run first ts st)) = true
     ∧ last (snd (run first ts st)) = Some (Exit 0)
     ∧ replacements (snd (run first ts st)) = 1)
  ∨ (exited (fst (run first ts st)) = true
     ∧ last (snd (run first ts st)) = Some UnhandledRejection
     ∧ replacements (snd (run first ts st)) = 0
     ∧ recorded first = false ∧ fatal first = true).
Proof.
  intros Hrun Hws. unfold run.
  assert ((exited (fst (startUpdateLoop first st)) = false
           ∧ Exit 0 ∉ snd (startUpdateLoop first st)
           ∧ replacements (snd (startUpdateLoop first st)) = 0)
          ∨ (exited (fst (startUpdateLoop first st)) = true
             ∧ last (snd (startUpdateLoop first st)) = Some UnhandledRejection
             ∧ replacements (snd (startUpdateLoop first st)) = 0
             ∧ recorded first = false ∧ fatal first = true)) as Hs.
  { unfold startUpdateLoop, enabled.
    destruct (negb _); [| left; split; [done | split; [set_solver | done]]].
    destruct (fetched first) as [s |];
      [| left; split; [done | split; [set_solver | done]]].
    destruct (isEmpty s); [left; split; [done | split; [set_solver | done]] |].
    destruct (recorded first); [left; split; [done | split; [set_solver | done]] |].
    destruct (fatal first); [by right | left; split; [done | split; [set_solver | done]]]. }
  destruct (startUpdateLoop first st) as [st1 tr1]. cbn [fst snd] in Hs.
  destruct Hs as [(He & Hx & Hr) | (He & Hx & Hr & Hrec & Hfatal)].
  - pose proof (ticks_exit ts st1 He Hws) as Ht.
    destruct (ticks ts st1) as [st2 tr2]. cbn [fst snd] in *.
    rewrite replacements_app, Hr.
    destruct Ht as [(He2 & Hx2 & Hr2) | (He2 & Hx2 & Hr2)].
    + left. split; [done |]. split; [| done]. set_solver.
    + right; left. split; [done |]. split; [| done]. rewrite last_app, Hx2. done.
  - rewrite (ticks_exited ts st1 He). cbn [fst snd]. rewrite app_nil_r.
    right; right. by repeat split.
Qed.

Lemma run_replaces_once_then_exits_witness :
  exited (fst (run noFetch (failThenApply ++ failThenApply) running)) = true
  ∧ last (snd (run noFetch (failThenApply ++ failThenApply) running)) = Some (Exit 0)
  ∧ replacements (snd (run noFetch (failThenApply ++ failThenApply) running)) = 1.
Proof.
  destruct (run_replaces_once_then_exits noFetch (failThenApply ++ failThenApply) running
              eq_refl ltac:(by repeat constructor))
    as [(He & _) | [H | (_ & Hl & _)]]; [discriminate He | exact H | discriminate Hl].
Defined.

End UpdaterResults.

(** ** The connection: never idle, and final once shut down *)

Module ConnectionResults.
Import JS Discovery Connection Samples ConnectionWords ConnectionFacts.

Lemma truthy_is_Some (v : option jsstring) : truthy v = true → is_Some v.
Proof. destruct v; [by eexists | done]. Qed.

Lemma connectScanner_settles (v : Variant) (config : Config) (ports : list Port)
    (ok : bool) (st : State) :
  port st = None → timers st = ∅ →
  connected (connectScanner v config ports ok st)
  ∨ scheduled config (connectScanner v config ports ok st).
Proof.
  intros Hport Htimers. unfold connectScanner.
  destruct (clearTimeout_fields (reconnectTimer st) st) as (Hp & _ & Hn & _).
  assert (timers (clearTimeout (reconnectTimer st) st) = ∅) as Hclear
    by by apply timers_clearTimeout, timerOwned_empty.
  assert (scheduled config (armReconnect (reconnectInterval config)
                              (clearTimeout (reconnectTimer st) st))) as Harm.
  { split; [simpl; congruence |].
    exists (nextTimer (clearTimeout (reconnectTimer st) st)).
    by destruct (armReconnect_single (reconnectInterval config) _ Hclear). }
  destruct (truthy (findSerialPath config ports).1) eqn:Hpath; cbn [negb]; [| by right].
  assert (connected (setPort (findSerialPath config ports).1
                       (clearTimeout (reconnectTimer st) st))) as Hopen
    by (split; [by apply truthy_is_Some | done]).
  destruct v; [by left |]. destruct ok; [by left | by right].
Qed.

Lemma scheduled_delete (config : Config) (st : State) (id : nat) (delay : Q) :
  scheduled config st → timers st !! id = Some delay →
  delete id (timers st) = ∅.
Proof.
  intros (_ & id' & _ & Ht) Hid. rewrite Ht in Hid |- *.
  apply lookup_singleton_Some in Hid as [-> _]. apply delete_singleton_eq.
Qed.

Lemma reachable_settled (v : Variant) (config : Config) (st : State) :
  reachable v config st → exited st = false →
  connected st ∨ scheduled config st.
Proof.
  induction 1 as [ports ok | st ev st' Hreach IH Hstep]; intros Hrun.
  - by apply connectScanner_settles.
  - pose proof (reachable_owned v config st Hreach) as Hown.
    destruct Hstep as [st id delay ports ok He Hid | st He | st He | st He Hv | st He].
    + apply connectScanner_settles; simpl.
      * destruct (IH He) as [[_ Ht] | [Hp _]]; [| done].
        by rewrite Ht, lookup_empty in Hid.
      * destruct (IH He) as [[_ Ht] | Hs].
        -- by rewrite Ht, lookup_empty in Hid.
        -- by eapply scheduled_delete.
    + right. destruct (scheduleReconnect_single config st Hown) as (Hp & Hr & Ht & _).
      split; [done |]. by exists (nextTimer st).
    + right. destruct (scheduleReconnect_single config st Hown) as (Hp & Hr & Ht & _).
      split; [done |]. by exists (nextTimer st).
    + right. destruct (scheduleReconnect_single config st Hown) as (Hp & Hr & Ht & _).
      split; [done |]. by exists (nextTimer st).
    + done.
Qed.

(** X13.  While it runs the service is never idle and never reconnects over
    an open device: in every reachable state that has not exited, either
    the device is open and no reconnect timer is pending, or no device is
    open and exactly one timer is pending, set for [reconnectInterval]. *)
Theorem running_is_connected_or_scheduled (v : Variant) (config : Config) (st : State) :
  reachable v config st → exited st = false →
  (connected st ∨ scheduled config st)
  ∧ ¬ (connected st ∧ scheduled config st)
  ∧ (is_Some (port st) → pending st = 0)
  ∧ (port st = None → pending st = 1).
Proof.
  intros Hreach Hrun. pose proof (reachable_settled v config st Hreach Hrun) as Hs.
  split; [done |]. split; [| split].
  - intros [[Hp _] [Hn _]]. rewrite Hn in Hp. by destruct Hp.
  - intros Hp. destruct Hs as [[_ Ht] | [Hn _]].
    + unfold pending. by rewrite Ht, map_size_empty.
    + rewrite Hn in Hp. by destruct Hp.
  - intros Hn. destruct Hs as [[Hp _] | (_ & id & _ & Ht)].
    + rewrite Hn in Hp. by destruct Hp.
    + unfold pending. by rewrite Ht, map_size_singleton.
Qed.

Lemma running_is_connected_or_scheduled_witness :
  scheduled vendorOnly (connectScanner SttyStream vendorOnly [otherVendor; otherVendor] true init)
  ∧ connected (connectScanner SttyStream vendorOnly [reader "/dev/ttyACM0"] true init).
Proof.
  split.
  - destruct (proj1 (running_is_connected_or_scheduled SttyStream vendorOnly _
                       (reachable_start SttyStream vendorOnly [otherVendor; otherVendor] true)
                       eq_refl)) as [[[p Hp] _] | H]; [discriminate Hp | exact H].
  - destruct (proj1 (running_is_connected_or_scheduled SttyStream vendorOnly _
                       (reachable_start SttyStream vendorOnly [reader "/dev/ttyACM0"] true)
                       eq_refl)) as [H | [Hp _]]; [exact H | discriminate Hp].
Defined.

(** X14.  A termination signal is final: after [shutdown] no reconnect timer
    is pending, the process has exited, and no event is handled any more
    (no reconnect, no new open), whatever state the signal arrives in. *)
Theorem shutdown_is_final (v : Variant) (config : Config) (st st' : State) :
  reachable v config st → step v config st Signal st' →
  pending st' = 0 ∧ exited st' = true
  ∧ port st' = port st
  ∧ ∀ ev st'', ¬ step v config st' ev st''.
Proof.
  intros Hreach Hstep. pose proof (reachable_owned v config st Hreach) as Hown.
  inversion Hstep as [| | | | st0 He]; subst.
  assert (timers (shutdown st) = ∅) as Ht by (simpl; by apply timers_clearTimeout).
  split; [unfold pending; by rewrite Ht, map_size_empty |]. split; [done |]. split.
  - simpl. by destruct (reconnectTimer st).
  - intros ev st'' Hnext. inversion Hnext; subst; simpl in *; discriminate.
Qed.

Lemma shutdown_is_final_witness :
  pending (shutdown (failures vendorOnly 2
             (connectScanner SerialPortPkg vendorOnly [reader "/dev/ttyACM0"] true init))) = 0.
Proof.
  assert (reachable SerialPortPkg vendorOnly
            (failures vendorOnly 2
               (connectScanner SerialPortPkg vendorOnly [reader "/dev/ttyACM0"] true init)))
    as Hreach.
  { apply failures_reachable; [apply reachable_start | reflexivity]. }
  refine (proj1 (shutdown_is_final SerialPortPkg vendorOnly _ _ Hreach _)).
  apply step_signal. reflexivity.
Defined.

End ConnectionResults.

(** ** Enumeration and discovery together *)

Module EnumerationResults.
Import JS JSFacts Discovery Connection Samples ReaderWords UpdaterWords TrimFacts
  Enumeration DiscoveryFacts.

Lemma startsWith_app (s p q : jsstring) :
  startsWith s (p ++ q) = startsWith s p && startsWith (drop (length p) s) q.
Proof.
  revert s. induction p as [| a p IH]; intros s; simpl; [by rewrite drop_0 |].
  destruct s as [| b s]; simpl; [done |].
  rewrite IH. by destruct (Ascii.eqb a b).
Qed.

Lemma re_tty_prefix (name : jsstring) :
  re_tty name = startsWith name (str "tty.usb").
Proof.
  unfold re_tty.
  change (str "tty.usb") with (str "tty." ++ str "usb").
  change (str "usbserial") with (str "usb" ++ str "serial").
  change (str "usbmodem") with (str "usb" ++ str "modem").
  rewrite !startsWith_app.
  change (length (str "tty.")) with 4. change (length (str "usb")) with 3.
  destruct (startsWith name (str "tty.")); [| done].
  by destruct (startsWith (drop 4 name) (str "usb")).
Qed.

Lemma mac_port_shape (v : Variant) (dev : option (list jsstring)) (p : Port) :
  p ∈ discoverMacPorts v dev →
  ∃ name, port_path p = str "/dev/tty.usb" ++ name
          ∧ port_vendorId p = None ∧ port_productId p = None.
Proof.
  intros Hp. destruct dev as [names |]; [| by apply elem_of_nil in Hp].
  simpl in Hp. apply list_elem_of_In, in_map_iff in Hp as (name & <- & Hin).
  apply filter_In in Hin as [_ Htest].
  assert (startsWith name (str "tty.usb") = true) as Hpre
    by (destruct v; simpl in Htest; [by rewrite <- re_tty_prefix | done]).
  apply startsWith_prefix in Hpre as [k ->]. exists k. by repeat split.
Qed.

(** X15.  The two service variants enumerate the same devices on macOS: the
    regular expression of index.js accepts exactly the names that begin
    with ["tty.usb"], which is the test of the other variant; and nothing
    is enumerated when [/dev] cannot be read. *)
Theorem discoverMacPorts_variants_agree (dev : option (list jsstring)) :
  discoverMacPorts SerialPortPkg dev = discoverMacPorts SttyStream dev
  ∧ (∀ v p, p ∈ discoverMacPorts v dev →
       ∃ name, port_path p = str "/dev/tty.usb" ++ name
               ∧ port_vendorId p = None ∧ port_productId p = None)
  ∧ (∀ v, discoverMacPorts v None = []).
Proof.
  split; [| split; [| done]].
  - destruct dev as [names |]; [| done]. simpl. f_equal.
    apply List.filter_ext. intros name. apply re_tty_prefix.
  - intros v p. apply mac_port_shape.
Qed.

Lemma discoverMacPorts_variants_agree_witness :
  discoverMacPorts SerialPortPkg (Some [str "tty.usbserial-A1"; str "ttys000"; str "tty.usb"])
  = discoverMacPorts SttyStream (Some [str "tty.usbserial-A1"; str "ttys000"; str "tty.usb"])
  ∧ ∃ name, str "/dev/tty.usbserial-A1" = str "/dev/tty.usb" ++ name.
Proof.
  pose proof (discoverMacPorts_variants_agree
                (Some [str "tty.usbserial-A1"; str "ttys000"; str "tty.usb"]))
    as (Hagree & Hshape & _).
  split; [exact Hagree |].
  destruct (Hshape SttyStream
              {| port_path := str "/dev/tty.usbserial-A1";
                 port_vendorId := None; port_productId := None |})
    as (name & Hname & _).
  - simpl. set_solver.
  - by exists name.
Defined.

Lemma toLowerCase_nil (s : jsstring) : toLowerCase s = [] → s = [].
Proof. by destruct s. Qed.

Lemma unidentified_never_qualifies (config : Config) (p : Port) :
  filterConfigured config →
  port_vendorId p = None → port_productId p = None → ¬ qualifies config p.
Proof.
  intros Hfilter Hvid Hpid [Hv Hp]. unfold sameId in *. rewrite Hvid in Hv. rewrite Hpid in Hp.
  destruct Hfilter as [Ht | Ht].
  - specialize (Hv Ht). symmetry in Hv. apply toLowerCase_nil in Hv.
    destruct (vendorId config) as [[| c s] |]; done.
  - specialize (Hp Ht). symmetry in Hp. apply toLowerCase_nil in Hp.
    destruct (productId config) as [[| c s] |]; done.
Qed.

(** X16.  On macOS a vendor/product filter selects nothing, because the
    enumerated devices carry no identifiers: without a pinned path,
    discovery returns the only [tty.usb*] device when there is exactly
    one and no path otherwise, with or without a filter, and logs
    nothing. *)
Theorem mac_discovery_ignores_filter (v : Variant) (config : Config)
    (dev : option (list jsstring)) :
  truthy (serialPath config) = false →
  findSerialPath config (discoverMacPorts v dev)
  = (onlyDevice (discoverMacPorts v dev), []).
Proof.
  intros Hpin. destruct (truthy (vendorId config) || truthy (productId config)) eqn:Hf.
  - assert (filterConfigured config) as Hfilter.
    { unfold filterConfigured. apply orb_true_iff in Hf. tauto. }
    rewrite (findSerialPath_filter config _ Hpin Hfilter).
    rewrite filter_none; [done |].
    apply Forall_forall. intros p Hp.
    destruct (mac_port_shape v dev p Hp) as (_ & _ & Hvid & Hpid).
    by apply unidentified_never_qualifies.
  - apply findSerialPath_no_filter; [done |].
    unfold filterConfigured. apply orb_false_iff in Hf as [-> ->]. by intros [? | ?].
Qed.

Lemma mac_discovery_ignores_filter_witness :
  findSerialPath vendorOnly
    (discoverMacPorts SerialPortPkg
       (Some [str "tty.usbmodem14101"; str "tty.Bluetooth-Incoming-Port"; str "cu.usbmodem14101"]))
  = (Some (str "/dev/tty.usbmodem14101"), []).
Proof.
  exact (mac_discovery_ignores_filter SerialPortPkg vendorOnly
           (Some [str "tty.usbmodem14101"; str "tty.Bluetooth-Incoming-Port";
                  str "cu.usbmodem14101"]) eq_refl).
Defined.

Lemma scanById_resolved (entries : list ByIdEntry) :
  Forall (λ e, is_Some (resolved e)) entries →
  port_path <$> scanById entries = omap resolved entries
  ∧ length (scanById entries) = length entries.
Proof.
  induction 1 as [| e es [t Ht] _ [IH1 IH2]]; [done |].
  cbn [scanById]. rewrite Ht, fmap_cons. cbn [omap list_omap port_path length].
  by rewrite Ht, IH1, IH2.
Qed.

Lemma scanById_app (good : list ByIdEntry) (rest : list ByIdEntry) :
  Forall (λ e, is_Some (resolved e)) good →
  scanById (good ++ rest) = scanById good ++ scanById rest.
Proof.
  induction 1 as [| e es [t Ht] _ IH]; simpl; [done |]. by rewrite Ht, IH.
Qed.

(** X17.  On Linux the enumeration stops at the first by-id link that cannot
    be resolved: the devices before it are returned in directory order,
    the devices after it are not discovered; nothing is enumerated when the
    by-id directory cannot be read. *)
Theorem discoverLinuxPorts_stops_at_dangling_link (good : list ByIdEntry)
    (bad : ByIdEntry) (rest : list ByIdEntry) :
  Forall (λ e, is_Some (resolved e)) good → resolved bad = None →
  discoverLinuxPorts (Some (good ++ bad :: rest)) = discoverLinuxPorts (Some good)
  ∧ port_path <$> discoverLinuxPorts (Some good) = omap resolved good
  ∧ length (discoverLinuxPorts (Some good)) = length good
  ∧ discoverLinuxPorts None = [].
Proof.
  intros Hgood Hbad. simpl. rewrite (scanById_app good (bad :: rest) Hgood).
  simpl. rewrite Hbad, app_nil_r.
  destruct (scanById_resolved good Hgood) as [H1 H2]. by repeat split.
Qed.

Lemma discoverLinuxPorts_stops_at_dangling_link_witness :
  port_path <$> discoverLinuxPorts
      (Some [readerEntry "/dev/ttyACM0"; danglingEntry; readerEntry "/dev/ttyACM1"])
  = [str "/dev/ttyACM0"].
Proof.
  destruct (discoverLinuxPorts_stops_at_dangling_link
              [readerEntry "/dev/ttyACM0"] danglingEntry [readerEntry "/dev/ttyACM1"])
    as (H1 & H2 & _).
  - repeat constructor. by eexists.
  - reflexivity.
  - change (discoverLinuxPorts
              (Some [readerEntry "/dev/ttyACM0"; danglingEntry; readerEntry "/dev/ttyACM1"]))
      with (discoverLinuxPorts
              (Some ([readerEntry "/dev/ttyACM0"] ++ danglingEntry :: [readerEntry "/dev/ttyACM1"]))).
    rewrite H1. exact H2.
Defined.

Lemma sameId_trimmed (wanted : jsstring) (ws1 core ws2 : jsstring) :
  blank ws1 → blank ws2 → tight core → core ≠ [] →
  toLowerCase core = toLowerCase wanted →
  sameId (Some wanted) (Some (trim (ws1 ++ core ++ ws2))).
Proof.
  intros H1 H2 Hc Hne Heq _. rewrite trim_around by done.
  unfold orEmpty. simpl. destruct core; done.
Qed.

(** X18.  On Linux a device is matched on the content of its [idVendor]
    file without the white space around it (the sysfs line end) and
    without regard to letter case: with a vendor filter only, when the
    first enumerated device has the wanted vendor in that sense, discovery
    returns its path, whatever else is enumerated. *)
Theorem linux_vendor_match_ignores_case_and_space (config : Config)
    (e : ByIdEntry) (rest : list ByIdEntry)
    (target wanted ws1 core ws2 : jsstring) :
  truthy (serialPath config) = false →
  vendorId config = Some wanted → wanted ≠ [] → truthy (productId config) = false →
  resolved e = Some target → deviceFound e = true →
  idVendorFile e = Some (ws1 ++ core ++ ws2) →
  blank ws1 → blank ws2 → tight core → core ≠ [] →
  toLowerCase core = toLowerCase wanted →
  fst (findSerialPath config (discoverLinuxPorts (Some (e :: rest)))) = Some target.
Proof.
  intros Hpin Hvid Hwanted Hpid Hres Hdev Hfile H1 H2 Hc Hne Heq.
  assert (filterConfigured config) as Hfilter.
  { left. rewrite Hvid. by destruct wanted. }
  rewrite (findSerialPath_filter config _ Hpin Hfilter). simpl. rewrite Hres.
  assert (qualifies config
            {| port_path := target; port_vendorId := (readIds e).1;
               port_productId := (readIds e).2 |}) as Hq.
  { split; simpl.
    - rewrite Hvid. unfold readIds. rewrite Hdev, Hfile.
      destruct (idProductFile e); by apply sameId_trimmed.
    - intros Ht. by rewrite Ht in Hpid. }
  pose proof (filter_first config [] _ (scanById rest) (Forall_nil_2 _) Hq) as Hfirst.
  cbn [app] in Hfirst. rewrite Hfirst.
  by destruct (List.filter _ (scanById rest)).
Qed.

Lemma linux_vendor_match_ignores_case_and_space_witness :
  fst (findSerialPath vendorOnly
         (discoverLinuxPorts (Some [readerEntry "/dev/ttyACM0"; readerEntry "/dev/ttyACM1"])))
  = Some (str "/dev/ttyACM0").
Proof.
  apply (linux_vendor_match_ignores_case_and_space vendorOnly
           (readerEntry "/dev/ttyACM0") [readerEntry "/dev/ttyACM1"]
           (str "/dev/ttyACM0") (str "09D8") [] (str "09d8") [Reader.LF]);
    try reflexivity; try discriminate.
  - constructor.
  - by repeat constructor.
  - intros c [[= <-] | [= <-]]; split; (reflexivity || discriminate).
Defined.

(** X19.  Discovery never makes a path up: what [findSerialPath] returns is
    the pinned path of the configuration or the path of an enumerated
    device; and when a filter is configured, a returned device matches the
    filter or is the only device enumerated. *)
Theorem findSerialPath_returns_known_path (config : Config) (ports : list Port)
    (path : jsstring) :
  fst (findSerialPath config ports) = Some path →
  (truthy (serialPath config) = true ∧ serialPath config = Some path)
  ∨ (truthy (serialPath config) = false
     ∧ ∃ p, p ∈ ports ∧ port_path p = path
            ∧ (filterConfigured config → qualifies config p ∨ ports = [p])).
Proof.
  intros Hpath. destruct (truthy (serialPath config)) eqn:Hpin.
  - left. split; [done |]. unfold findSerialPath in Hpath. by rewrite Hpin in Hpath.
  - right. split; [done |].
    assert (onlyDevice ports = Some path →
            ∃ p, p ∈ ports ∧ port_path p = path ∧ ports = [p]) as Honly.
    { destruct ports as [| p [| q l]]; simpl; try done.
      intros [= <-]. exists p. split; [set_solver | done]. }
    destruct (truthy (vendorId config) || truthy (productId config)) eqn:Hf.
    + assert (filterConfigured config) as Hfilter.
      { unfold filterConfigured. apply orb_true_iff in Hf. tauto. }
      rewrite (findSerialPath_filter config _ Hpin Hfilter) in Hpath.
      destruct (List.filter _ ports) as [| p l] eqn:E.
      * destruct (Honly Hpath) as (p & Hin & Hp & Hports).
        exists p. repeat split; try done. intros _. by right.
      * assert (In p (List.filter (portMatches (want (vendorId config))
                                     (want (productId config))) ports)) as Hin
          by (rewrite E; by left).
        apply filter_In in Hin as [Hin Hm]. apply portMatches_qualifies in Hm.
        exists p. split; [by apply list_elem_of_In |]. split.
        -- destruct l; simpl in Hpath; congruence.
        -- intros _. by left.
    + assert (¬ filterConfigured config) as Hno.
      { unfold filterConfigured. apply orb_false_iff in Hf as [-> ->]. by intros [? | ?]. }
      rewrite (findSerialPath_no_filter config _ Hpin Hno) in Hpath.
      destruct (Honly Hpath) as (p & Hin & Hp & Hports).
      exists p. repeat split; try done.
Qed.

Lemma findSerialPath_returns_known_path_witness :
  ∃ p, p ∈ [otherVendor; reader "/dev/ttyACM0"] ∧ port_path p = str "/dev/ttyACM0"
       ∧ qualifies vendorOnly p.
Proof.
  destruct (findSerialPath_returns_known_path vendorOnly
              [otherVendor; reader "/dev/ttyACM0"] (str "/dev/ttyACM0") eq_refl)
    as [[Hpin _] | (_ & p & Hin & Hp & Hq)]; [discriminate Hpin |].
  exists p. split; [exact Hin |]. split; [exact Hp |].
  destruct (Hq (or_introl eq_refl)) as [H | H]; [exact H | discriminate H].
Defined.

End EnumerationResults.

(** ** The normalizer: shape, order and repetition *)

Module NormalizerResults.
Import JS Parsers Formats JSFacts ParserFacts Samples Numbers ReaderFacts.

Lemma length_middle (seg : jsstring) : length (middle seg) = length seg - 10.
Proof.
  unfold middle. rewrite removelast_firstn_len, length_take, length_drop. lia.
Qed.

Lemma length_zeroPadded (s : jsstring) : length (zeroPadded s) = Nat.max 9 (length s).
Proof. unfold zeroPadded, zeros. rewrite length_app, length_replicate. lia. Qed.

Lemma zeroPadded_fixed (s : jsstring) : 9 ≤ length s → zeroPadded s = s.
Proof. intros H. unfold zeroPadded. by replace (9 - length s) with 0 by lia. Qed.

(** X20.  What the normalizer returns is always a decimal string of at least
    nine characters; it has exactly nine unless the line is a 16-digit
    mobile number, returned as it is, or a delimited line whose issuer
    field has twenty characters or more, in which case the identifier is
    that field without its first nine characters and its last one. *)
Theorem parseCardData_identifier_shape (raw r : jsstring) :
  parseCardData raw = Some r →
  decimal r ∧ 9 ≤ length r
  ∧ (length r = 9
     ∨ (length r = 16 ∧ r = raw ∧ "="%char ∉ raw)
     ∨ ("="%char ∈ raw
        ∧ ∃ seg, seg ∈ split "=" raw ∧ hasIssuerPrefix seg
                 ∧ 20 ≤ length seg ∧ r = middle seg)).
Proof.
  intros Hparse. pose proof (parseCardData_decimal raw r Hparse) as [Hdec Hlen].
  split; [done |]. split; [done |].
  apply parseCardData_canonical in Hparse as [Hfull | [Hmob | Hshort]].
  - destruct Hfull as (Hsep & before & seg & after & Hsplit & _ & Hpre & _ & _ & ->).
    rewrite length_zeroPadded in *. rewrite length_middle in *.
    destruct (decide (length seg ≤ 19)) as [Hle | Hgt]; [left; lia |].
    right; right. split; [done |]. exists seg.
    split; [rewrite Hsplit; set_solver |]. split; [done |]. split; [lia |].
    apply zeroPadded_fixed. rewrite length_middle. lia.
  - destruct Hmob as (Hl & Hd & _ & ->). right; left. repeat split; try done.
    intros Hin. apply includes_elem in Hin. by rewrite decimal_no_separator in Hin.
  - destruct Hshort as (Hl & _ & ->). left. rewrite length_zeroPadded. lia.
Qed.

Lemma parseCardData_identifier_shape_witness :
  decimal (str "000111111") ∧ length (str "000111111") = 9.
Proof.
  destruct (parseCardData_identifier_shape
              (str "1570=900000001=00=6017700001111110") (str "000111111") eq_refl)
    as (Hdec & _ & _).
  split; [exact Hdec | reflexivity].
Defined.

(** At most one of the three formats matches a line. *)
Lemma formats_exclusive (raw : jsstring) :
  (fullParser raw = None ∧ mobileParser raw = None)
  ∨ (fullParser raw = None ∧ shortParser raw = None)
  ∨ (mobileParser raw = None ∧ shortParser raw = None).
Proof.
  destruct (fullParser raw) as [r1 |] eqn:Hfull.
  - right; right.
    assert (includes raw "=" = true) as Hinc.
    { unfold fullParser in Hfull. by destruct (includes raw "="). }
    split.
    + destruct (mobileParser raw) as [r |] eqn:E; [| done].
      apply mobileParser_spec in E as (_ & Hd & _).
      by rewrite decimal_no_separator in Hinc.
    + destruct (shortParser raw) as [r |] eqn:E; [| done].
      apply shortParser_spec in E as (_ & Hd & _).
      by rewrite decimal_no_separator in Hinc.
  - destruct (mobileParser raw) as [r2 |] eqn:Hmob; [| by left].
    right; left. split; [done |].
    destruct (shortParser raw) as [r |] eqn:E; [| done].
    apply mobileParser_spec in Hmob as (Hl16 & _).
    apply shortParser_spec in E as (Hl9 & _). lia.
Qed.

Lemma createCardParser_none (parsers : list Parser) (raw : jsstring) :
  createCardParser parsers raw = None ↔ Forall (λ p, p raw = None) parsers.
Proof.
  induction parsers as [| p ps IH]; simpl; [by split; [constructor |] |].
  destruct (p raw) eqn:E.
  - split; [done |]. intros H. inversion H; congruence.
  - rewrite IH. split; [by constructor | by inversion 1].
Qed.

Lemma createCardParser_some (parsers : list Parser) (raw r : jsstring) :
  createCardParser parsers raw = Some r → ∃ p, p ∈ parsers ∧ p raw = Some r.
Proof.
  induction parsers as [| p ps IH]; simpl; [done |].
  destruct (p raw) eqn:E.
  - intros [= <-]. exists p. split; [set_solver | done].
  - intros H. destruct (IH H) as (q & Hq & Hr). exists q. split; [set_solver | done].
Qed.

(** X21.  The three built-in formats exclude each other, so the fixed order
    in which they are tried decides nothing: tried in any order, the
    built-in parsers give every line the same result. *)
Theorem builtinParsers_order_irrelevant (parsers : list Parser) (raw : jsstring) :
  parsers ≡ₚ builtinParsers →
  createCardParser parsers raw = parseCardData raw.
Proof.
  intros Hperm. unfold parseCardData.
  destruct (createCardParser builtinParsers raw) as [r |] eqn:E.
  - destruct (createCardParser parsers raw) as [r' |] eqn:E'.
    + f_equal.
      apply createCardParser_some in E as (p & Hp & Hr).
      apply createCardParser_some in E' as (p' & Hp' & Hr').
      rewrite Hperm in Hp'. unfold builtinParsers in *.
      pose proof (formats_exclusive raw) as Hx.
      repeat (apply elem_of_cons in Hp as [-> | Hp]);
        repeat (apply elem_of_cons in Hp' as [-> | Hp']);
        try (by apply elem_of_nil in Hp); try (by apply elem_of_nil in Hp');
        try congruence;
        destruct Hx as [[? ?] | [[? ?] | [? ?]]]; congruence.
    + apply createCardParser_none in E'. rewrite Hperm in E'.
      apply createCardParser_none in E'. congruence.
  - apply createCardParser_none. rewrite Hperm. by apply createCardParser_none.
Qed.

Lemma builtinParsers_order_irrelevant_witness :
  createCardParser [shortParser; mobileParser; fullParser]
    (str "1570=900000001=00=6017700001111110") = Some (str "000111111").
Proof.
  rewrite (builtinParsers_order_irrelevant [shortParser; mobileParser; fullParser]).
  - reflexivity.
  - symmetry. exact (Permutation_rev builtinParsers).
Defined.

(** X22.  An identifier of nine characters, and a mobile identifier, is a
    fixed point of the normalizer, and no other identifier is: fed back,
    an identifier is returned unchanged exactly when it has nine
    characters or is sixteen digits with the issuer prefix.  Every
    identifier of a line without separator is of that kind. *)
Theorem parseCardData_idempotent_iff (raw r : jsstring) :
  parseCardData raw = Some r →
  (parseCardData r = Some r
   ↔ length r = 9 ∨ (length r = 16 ∧ hasIssuerPrefix r))
  ∧ ("="%char ∉ raw → parseCardData r = Some r)
  ∧ (∀ r', parseCardData r = Some r' → r' = r).
Proof.
  intros Hparse. pose proof (parseCardData_decimal raw r Hparse) as [Hdec Hlen].
  assert (parseCardData r = Some r
          ↔ length r = 9 ∨ (length r = 16 ∧ hasIssuerPrefix r)) as Hiff.
  { rewrite parseCardData_canonical. split.
    - intros [Hfull | [Hmob | Hshort]].
      + destruct Hfull as [Hsep _]. apply includes_elem in Hsep.
        by rewrite decimal_no_separator in Hsep.
      + destruct Hmob as (Hl & _ & Hpre & _). by right.
      + destruct Hshort as (Hl & _). left. lia.
    - intros [H9 | [H16 Hpre]].
      + right; right. split; [lia |]. split; [done |].
        symmetry. apply zeroPadded_fixed. lia.
      + right; left. by repeat split. }
  split; [exact Hiff |]. split.
  - intros Hsep. apply Hiff.
    apply parseCardData_canonical in Hparse as [Hfull | [Hmob | Hshort]].
    + by destruct Hfull as [? _].
    + destruct Hmob as (Hl & _ & Hpre & ->). by right.
    + destruct Hshort as (Hl & _ & ->). left. rewrite length_zeroPadded. lia.
  - intros r' Hr'. apply parseCardData_canonical in Hr' as [Hfull | [Hmob | Hshort]].
    + destruct Hfull as [Hsep _]. apply includes_elem in Hsep.
      by rewrite decimal_no_separator in Hsep.
    + by destruct Hmob as (_ & _ & _ & ->).
    + destruct Hshort as (Hl & _ & ->). apply zeroPadded_fixed. lia.
Qed.

Lemma parseCardData_idempotent_iff_witness :
  parseCardData (str "6017700010001111") = Some (str "6017700010001111")
  ∧ parseCardData (str "1234567890") = None.
Proof.
  split; [reflexivity |].
  destruct (parseCardData (str "1234567890")) as [r' |] eqn:E; [| reflexivity].
  exfalso.
  destruct (parseCardData_idempotent_iff
              (str "1570=900000001=00=60177000012345678901") (str "1234567890") eq_refl)
    as (Hiff & _ & Hsame).
  rewrite (Hsame r' E) in E. apply Hiff in E as [H | [H _]]; discriminate H.
Defined.

End NormalizerResults.

(** ** Short numbers as numbers *)

Module NumberResults.
Import JS Parsers Formats JSFacts ParserFacts Numbers ReaderFacts NormalizerResults.

Lemma value_snoc (s : jsstring) (c : ascii) :
  value (s ++ [c]) = 10 * value s + digitValue c.
Proof. unfold value. by rewrite fold_left_app. Qed.

Lemma value_zeros_app (n : nat) (s : jsstring) : value (zeros n ++ s) = value s.
Proof.
  unfold value. rewrite fold_left_app. f_equal.
  induction n as [| n IH]; [done |]. simpl. exact IH.
Qed.

Lemma digitValue_bound (c : ascii) : digit c → digitValue c < 10.
Proof.
  unfold digit. intros H. vm_compute in H.
  repeat (apply elem_of_cons in H as [-> | H]; [vm_compute; lia |]).
  by apply elem_of_nil in H.
Qed.

Lemma digitValue_inj (c1 c2 : ascii) :
  digit c1 → digit c2 → digitValue c1 = digitValue c2 → c1 = c2.
Proof.
  intros H1 H2 Heq.
  assert (code c1 = code c2) as Hcode.
  { apply isDigit_digit in H1, H2. unfold isDigit in *.
    apply andb_true_iff in H1 as [H1 _]. apply andb_true_iff in H2 as [H2 _].
    apply Nat.leb_le in H1, H2. unfold digitValue in Heq. lia. }
  unfold code in Hcode.
  by rewrite <- (ascii_nat_embedding c1), <- (ascii_nat_embedding c2), Hcode.
Qed.

(** Decimal strings of one length that write the same number are equal. *)
Lemma value_inj (s1 s2 : jsstring) :
  length s1 = length s2 → decimal s1 → decimal s2 → value s1 = value s2 → s1 = s2.
Proof.
  revert s2. induction s1 as [| c1 s1 IH] using rev_ind; intros s2 Hlen Hd1 Hd2 Hv.
  - destruct s2; [done | discriminate Hlen].
  - destruct s2 as [| c2 s2 _] using rev_ind.
    { rewrite length_app in Hlen. simpl in Hlen. lia. }
    rewrite !length_app in Hlen. simpl in Hlen.
    apply Forall_app in Hd1 as [Hd1 Hc1]. apply Forall_app in Hd2 as [Hd2 Hc2].
    inversion Hc1; subst. inversion Hc2; subst.
    rewrite !value_snoc in Hv.
    pose proof (digitValue_bound c1 ltac:(done)). pose proof (digitValue_bound c2 ltac:(done)).
    f_equal.
    + apply IH; [lia | done | done | lia].
    + f_equal. apply digitValue_inj; [done | done | lia].
Qed.

(** X23.  A short scan is read as a number: its identifier writes the same
    number as the scanned digits, and two short scans get the same
    identifier exactly when they write the same number, however many
    leading zeros each has. *)
Theorem short_scans_identified_by_number (raw1 raw2 : jsstring) :
  1 ≤ length raw1 ≤ 9 → decimal raw1 →
  1 ≤ length raw2 ≤ 9 → decimal raw2 →
  (∃ r, parseCardData raw1 = Some r ∧ value r = value raw1)
  ∧ (parseCardData raw1 = parseCardData raw2 ↔ value raw1 = value raw2).
Proof.
  intros Hl1 Hd1 Hl2 Hd2.
  assert (∀ s, 1 ≤ length s ≤ 9 → decimal s → parseCardData s = Some (zeroPadded s))
    as Hshort.
  { intros s Hl Hd. apply parseCardData_canonical. right; right.
    split; [exact Hl | by split]. }
  rewrite (Hshort raw1 Hl1 Hd1), (Hshort raw2 Hl2 Hd2). split.
  - exists (zeroPadded raw1). split; [done | apply value_zeros_app].
  - split.
    + intros [= Heq].
      rewrite <- (value_zeros_app (9 - length raw1) raw1).
      rewrite <- (value_zeros_app (9 - length raw2) raw2).
      fold (zeroPadded raw1). fold (zeroPadded raw2). by rewrite Heq.
    + intros Hv. f_equal. apply value_inj.
      * rewrite !length_zeroPadded. lia.
      * apply Forall_app. split; [apply decimal_zeros | done].
      * apply Forall_app. split; [apply decimal_zeros | done].
      * unfold zeroPadded. by rewrite !value_zeros_app.
Qed.

Lemma short_scans_identified_by_number_witness :
  parseCardData (str "111111") = parseCardData (str "00111111").
Proof.
  refine (proj2 (proj2 (short_scans_identified_by_number (str "111111") (str "00111111")
                          _ _ _ _)) _).
  - simpl. lia.
  - apply forallb_isDigit. reflexivity.
  - simpl. lia.
  - apply forallb_isDigit. reflexivity.
  - reflexivity.
Defined.

End NumberResults.

(** ** The loaded configuration *)

Module ConfigResults.
Import JS Delivery Samples DeliveryFacts.
Local Open Scope Z_scope.

Lemma orNull_normal (v : option jsstring) : orNull v ≠ Some [].
Proof. unfold orNull. by destruct v as [[| c s] |]. Qed.

Lemma orNull_Some (v : option jsstring) (s : jsstring) :
  orNull v = Some s → v = Some s ∧ s ≠ [].
Proof. unfold orNull. destruct v as [[| c t] |]; simpl; [done | by intros [= <-] | done]. Qed.

Lemma orDefault_nonzero (v : option Q) (d : Q) :
  ¬ (d == 0)%Q → ¬ (orDefault v d == 0)%Q.
Proof.
  intros Hd. unfold orDefault. destruct v as [n |]; [| done].
  destruct (Qeq_bool n 0) eqn:E; [done |]. by apply Qeq_bool_neq.
Qed.

Lemma orDefault_cases (v : option Q) (d : Q) :
  ((v = None ∨ ∃ q, v = Some q ∧ (q == 0)%Q) ∧ orDefault v d = d)
  ∨ (∃ q, v = Some q ∧ ¬ (q == 0)%Q ∧ orDefault v d = q).
Proof.
  unfold orDefault. destruct v as [n |]; [| left; split; [by left | done]].
  destruct (Qeq_bool n 0) eqn:E.
  - left. split; [| done]. right. exists n. split; [done |]. by apply Qeq_bool_iff.
  - right. exists n. split; [done |]. split; [| done]. by apply Qeq_bool_neq.
Qed.

(** X24.  A configuration that was loaded is in normal form: endpoint and
    device name are the non-empty texts of the file; an optional text is
    [null] or not empty, never the empty string; no number is zero, a
    number that is absent or zero in the file having its default (9600,
    5000, 3 and 2000); any other number, whole or not, of either sign, is
    taken as it is.  Loading fails exactly when the endpoint or the
    device name is absent or empty. *)
Theorem loadConfig_normal_form (file : ConfigFile) :
  (∀ config, loadConfig file = Some config →
     cfg_endpoint file = Some (endpoint config) ∧ endpoint config ≠ []
     ∧ cfg_deviceName file = Some (deviceName config) ∧ deviceName config ≠ []
     ∧ serialPath config ≠ Some [] ∧ vendorId config ≠ Some []
     ∧ productId config ≠ Some [] ∧ authToken config ≠ Some []
     ∧ ¬ (baudRate config == 0)%Q ∧ ¬ (reconnectInterval config == 0)%Q
     ∧ ¬ (sendRetries config == 0)%Q ∧ ¬ (sendRetryDelay config == 0)%Q
     ∧ (cfg_baudRate file = None ∨ (∃ q, cfg_baudRate file = Some q ∧ (q == 0)%Q) →
        baudRate config = 9600%Q)
     ∧ (cfg_reconnectInterval file = None
        ∨ (∃ q, cfg_reconnectInterval file = Some q ∧ (q == 0)%Q) →
        reconnectInterval config = 5000%Q)
     ∧ (cfg_sendRetries file = None
        ∨ (∃ q, cfg_sendRetries file = Some q ∧ (q == 0)%Q) →
        sendRetries config = 3%Q)
     ∧ (cfg_sendRetryDelay file = None
        ∨ (∃ q, cfg_sendRetryDelay file = Some q ∧ (q == 0)%Q) →
        sendRetryDelay config = 2000%Q)
     ∧ (∀ q, cfg_baudRate file = Some q → ¬ (q == 0)%Q → baudRate config = q)
     ∧ (∀ q, cfg_reconnectInterval file = Some q → ¬ (q == 0)%Q →
        reconnectInterval config = q)
     ∧ (∀ q, cfg_sendRetries file = Some q → ¬ (q == 0)%Q → sendRetries config = q)
     ∧ (∀ q, cfg_sendRetryDelay file = Some q → ¬ (q == 0)%Q →
        sendRetryDelay config = q))
  ∧ (loadConfig file = None
     ↔ truthy (cfg_endpoint file) = false ∨ truthy (cfg_deviceName file) = false).
Proof.
  assert (∀ v d, v = None ∨ (∃ q, v = Some q ∧ (q == 0)%Q) → orDefault v d = d)
    as Hdefault.
  { intros v d Hv. destruct (orDefault_cases v d) as [[_ ?] | (q & -> & Hq & _)]; [done |].
    destruct Hv as [? | (q' & [= <-] & ?)]; done. }
  assert (∀ v d q, v = Some q → ¬ (q == 0)%Q → orDefault v d = q) as Hkept.
  { intros v d q -> Hq.
    destruct (orDefault_cases (Some q) d)
      as [[[? | (q' & [= <-] & ?)] _] | (q' & [= <-] & _ & ?)]; done. }
  split.
  - intros config. unfold loadConfig.
    destruct (orNull (cfg_endpoint file)) as [ep |] eqn:Hep; [| done].
    destruct (orNull (cfg_deviceName file)) as [dev |] eqn:Hdev; [| done].
    intros [= <-]. cbn [endpoint deviceName serialPath vendorId productId authToken
                        baudRate reconnectInterval sendRetries sendRetryDelay].
    apply orNull_Some in Hep as [Hep Hep']. apply orNull_Some in Hdev as [Hdev Hdev'].
    repeat split; try done; try apply orNull_normal;
      try (by apply orDefault_nonzero); try (by apply Hdefault);
      by apply Hkept.
  - unfold loadConfig, orNull.
    destruct (truthy (cfg_endpoint file)) eqn:He;
      destruct (truthy (cfg_deviceName file)) eqn:Hd.
    + destruct (cfg_endpoint file); [| done]. destruct (cfg_deviceName file); [| done].
      split; [done | by intros [? | ?]].
    + destruct (cfg_endpoint file); [| done]. split; [by right | done].
    + split; [by left | done].
    + split; [by left | done].
Qed.

Lemma loadConfig_normal_form_witness :
  sendRetries installed = 3%Q ∧ endpoint installed ≠ []
  ∧ sendRetries fractionalRetries = 2.5%Q.
Proof.
  destruct (proj1 (loadConfig_normal_form installedFile) installed eq_refl)
    as (_ & Hep & _ & _ & _ & _ & _ & _ & _ & _ & _ & _ & _ & _ & _ & _ & _ & _ & Hn & _).
  destruct (proj1 (loadConfig_normal_form fractionalRetriesFile) fractionalRetries eq_refl)
    as (_ & _ & _ & _ & _ & _ & _ & _ & _ & _ & _ & _ & _ & _ & _ & _ & _ & _ & Hf & _).
  split; [| split; [exact Hep |]].
  - apply (Hn 3%Q); [reflexivity | discriminate].
  - apply (Hf 2.5%Q); [reflexivity | discriminate].
Defined.

(** X25.  With a config.json whose [sendRetries] is absent or a whole
    number that is not negative, the loaded count is a whole number of at
    least one and no event is ever posted more often than the loaded
    count, whatever the calls answer.  (A count that is not whole does
    not bound the requests: C6 has 2.5, which gives three.) *)
Theorem loaded_config_bounds_attempts (file : ConfigFile) (config : Config)
    (net : Z → Reply) (scan : Scan) :
  loadConfig file = Some config →
  (∀ q, cfg_sendRetries file = Some q → ∃ n : Z, 0 ≤ n ∧ (q == inject_Z n)%Q) →
  (∃ n : Z, 1 ≤ n ∧ (sendRetries config == inject_Z n)%Q)
  ∧ (1 <= sendRetries config)%Q
  ∧ (inject_Z (Z.of_nat (attempts (deliver config net scan))) <= sendRetries config)%Q.
Proof.
  intros Hload Hwhole.
  assert (∃ n : Z, 1 ≤ n ∧ (sendRetries config == inject_Z n)%Q) as (n & Hone & Hn).
  { unfold loadConfig in Hload.
    destruct (orNull (cfg_endpoint file)); [| done].
    destruct (orNull (cfg_deviceName file)); [| done].
    injection Hload as <-. cbn [sendRetries].
    destruct (orDefault_cases (cfg_sendRetries file) 3%Q)
      as [[_ ->] | (q & Hq & Hnz & ->)]; [by exists 3 |].
    destruct (Hwhole q Hq) as (n & Hpos & Hn). exists n. split; [| done].
    destruct (decide (n = 0)) as [-> | ?]; [by destruct Hnz | lia]. }
  split; [by exists n |].
  assert (Qceiling (sendRetries config) = n) as Hceil
    by (rewrite (Qceiling_comp _ _ Hn); apply Qceiling_Z).
  pose proof (attempts_sendToServer config net scan
                (Z.to_nat (Qceiling (sendRetries config) - 1)) 1 eq_refl) as H.
  rewrite Hceil in H. unfold deliver. rewrite Hn. split.
  - change 1%Q with (inject_Z 1). rewrite <- Zle_Qle. lia.
  - rewrite <- Zle_Qle. lia.
Qed.

Lemma loaded_config_bounds_attempts_witness :
  (inject_Z (Z.of_nat (attempts (deliver installed DeliveryWords.thirdTime sampleScan)))
   <= 3)%Q.
Proof.
  refine (proj2 (proj2 (loaded_config_bounds_attempts installedFile installed
                          DeliveryWords.thirdTime sampleScan eq_refl _))).
  intros q [= <-]. exists 3. split; [lia | reflexivity].
Defined.

End ConfigResults.
